(** * Table diffing by checksum bisection: a model of [data_diff/diff_tables.py]

    The development follows the Python module top-down: the helpers
    ([safezip], [split_space]), the [TableSegment] value object with its
    queries, the local set-diff [diff_sets], and the [TableDiffer] with its
    two mutually recursive generators.

    Conventions of the embedding.
    - Keys ([DbKey]) and timestamps are modelled as [Z], with Python's floor
      division, [range] and slicing written out.
    - A raised exception is a value of [exn]; fallible functions return
      [result].
    - The [Database] handle is the capability the module consumes through
      [self.database.query(select, shape)]: one oracle per query the module
      issues. Backend errors are not modelled.
    - [_threaded_call] and [_thread_map] return their results in input order;
      the model runs the calls in that order ([threaded = False]). Logging and
      the timing of checksum queries have no effect on what is returned and
      are left out, except where building the log line itself can raise.
    - A generator is run to completion by its consumer; it is modelled by the
      list of events it yields plus the way it stopped. [self.stats] is a
      dictionary the generators update in place: it is the state they thread.
    - Recursion that Python does not bound is driven by a [fuel] counter; a
      run that exhausts every fuel is a run that does not end. *)

From stdpp Require Import gmap strings list sorting.
From Stdlib Require Import ZArith Lia.

Local Open Scope Z_scope.

(** ** Exceptions and results *)

Inductive exn :=
  | ValueError (msg : string)
  | AssertionError
  | ZeroDivisionError
  | TypeError.

Inductive result (A : Type) :=
  | Ok (a : A)
  | Raise (e : exn).
Arguments Ok {A} a.
Arguments Raise {A} e.

Global Instance result_ret : MRet result := λ A a, Ok a.
Global Instance result_bind : MBind result := λ A B k r,
  match r with
  | Ok a => k a
  | Raise e => Raise e
  end.

Global Instance exn_eq_dec : EqDecision exn.
Proof. solve_decision. Defined.

(** ** Rows of the canonical column projection

    [get_values] downloads tuples whose first component is the key
    ([_relevant_columns] puts [key_column] first); the other components are
    database values. *)

Inductive value :=
  | VInt (n : Z)
  | VStr (s : string)
  | VNull.

Global Instance value_eq_dec : EqDecision value.
Proof. solve_decision. Defined.

Definition row : Type := Z * list value.

Definition row_key (r : row) : Z := r.1.

(** ** Python built-ins used by the module *)

(** [len(range(start, stop, step))] for [step ≠ 0]. *)
Definition range_len (start stop step : Z) : Z :=
  if bool_decide (0 < step ∧ start < stop) then 1 + (stop - 1 - start) `div` step
  else if bool_decide (step < 0 ∧ stop < start) then 1 + (start - 1 - stop) `div` (- step)
  else 0.

(** [list(range(start, stop, step))]; [range] raises on a zero step. *)
Definition py_range (start stop step : Z) : result (list Z) :=
  if bool_decide (step = 0) then Raise (ValueError "range() arg 3 must not be zero")
  else Ok ((λ i : nat, start + Z.of_nat i * step) <$> seq 0 (Z.to_nat (range_len start stop step))).

(** Index adjustment of a slice bound, as [PySlice_AdjustIndices] does for a
    step of one. *)
Definition slice_index (len i : Z) : Z :=
  if bool_decide (i < 0) then Z.max 0 (i + len) else Z.min i len.

(** [l[lo:hi]] *)
Definition py_slice {A} (l : list A) (lo hi : Z) : list A :=
  let len := Z.of_nat (length l) in
  let a := slice_index len lo in
  let b := slice_index len hi in
  take (Z.to_nat (b - a)) (drop (Z.to_nat a) l).

(** Floor division [a // b]. *)
Definition py_floordiv (a b : Z) : result Z :=
  if bool_decide (b = 0) then Raise ZeroDivisionError else Ok (a `div` b).

(** ** [split_space] *)

Definition split_space (start end_ count : Z) : result (list Z) :=
  let size := end_ - start in
  step ← py_floordiv (size + 1) (count + 1);
  r ← py_range start end_ step;
  Ok (py_slice r 1 (count + 1)).

(** ** The database capability

    A [Select] built by [_make_select] carries the table and the [where]
    list [_make_key_range ++ _make_update_range]: at most one lower and one
    upper bound on the key column, and the same on the update column. *)

Record Select := {
  sel_table : list string;
  where_start_key : option Z;   (* Compare("<=", start_key, key_column) *)
  where_end_key : option Z;     (* Compare("<", key_column, end_key) *)
  where_min_time : option Z;    (* Compare("<=", min_time, update_column) *)
  where_max_time : option Z     (* Compare("<", update_column, max_time) *)
}.

(** One oracle per column list the module asks for. *)
Record Database := {
  query_min_max : Select → option Z * option Z;         (* [Min(key), Max(key)] *)
  query_count_checksum : Select → option Z * option Z;  (* [Count(), Checksum(cols)] *)
  query_rows : Select → list row                        (* the relevant columns *)
}.

(** ** [TableSegment] *)

Record TableSegment := {
  database : Database;
  table_path : list string;
  key_column : string;
  update_column : option string;
  extra_columns : list string;
  start_key : option Z;
  end_key : option Z;
  min_time : option Z;
  max_time : option Z
}.

(** The check run when a segment is built: time bounds need an update
    column (an empty name counts as none). *)
Definition __post_init__ (self : TableSegment) : result unit :=
  if bool_decide (update_column self = None ∨ update_column self = Some "") &&
     (bool_decide (min_time self ≠ None) || bool_decide (max_time self ≠ None))
  then Raise (ValueError "Error: min_time/max_time feature requires to specify 'update_column'")
  else Ok ().

Definition _make_select (self : TableSegment) : Select :=
  {| sel_table := table_path self;
     where_start_key := start_key self;
     where_end_key := end_key self;
     where_min_time := min_time self;
     where_max_time := max_time self |}.

(** [self.new(start_key=s, end_key=e)]: a copy through [replace]; the other
    fields, which are all that [__post_init__] reads, stay as they are. *)
Definition new (self : TableSegment) (s e : option Z) : TableSegment :=
  {| database := database self;
     table_path := table_path self;
     key_column := key_column self;
     update_column := update_column self;
     extra_columns := extra_columns self;
     start_key := s;
     end_key := e;
     min_time := min_time self;
     max_time := max_time self |}.

Definition is_bounded (self : TableSegment) : bool :=
  bool_decide (start_key self ≠ None) && bool_decide (end_key self ≠ None).

(** Truth value of an optional column name: [None] and the empty string are
    false. *)
Definition named (c : option string) : list string :=
  match c with
  | Some c => if bool_decide (c = "") then [] else [c]
  | None => []
  end.

(** The property [_relevant_columns]: the key column, then the sorted set of
    the extra columns and the update column. [sorted] makes the order in
    which the set is enumerated immaterial; [remove_dups] is one
    enumeration. *)
Definition _relevant_columns (self : TableSegment) : list string :=
  let extras := remove_dups (extra_columns self ++ named (update_column self)) in
  [key_column self] ++ merge_sort String.le extras.

Definition get_values (self : TableSegment) : list row :=
  query_rows (database self) (_make_select self).

(** [count or 0]: a null count and a zero count both give [0]. *)
Definition count_and_checksum (self : TableSegment) : Z * option Z :=
  let '(count, checksum) := query_count_checksum (database self) (_make_select self) in
  (default 0 count, checksum).

Definition query_key_range (self : TableSegment) : result (Z * Z) :=
  match query_min_max (database self) (_make_select self) with
  | (Some min_key, Some max_key) => Ok (min_key, max_key)
  | _ => Raise (ValueError "Table appears to be empty")
  end.

Definition choose_checkpoints (self : TableSegment) (count : Z) : result (list Z) :=
  match start_key self, end_key self with
  | Some s, Some e => split_space s e count
  | _, _ => Raise AssertionError
  end.

(** Truth value of an optional int: [None] and [0] are false. *)
Definition truthy (k : option Z) : bool :=
  match k with
  | Some k => bool_decide (k ≠ 0)
  | None => false
  end.

(** The state a call of [segment_by_checkpoints] leaves behind: the receiver,
    the caller's checkpoint list (sorted in place by [checkpoints.sort()]) and
    the returned list of tables. *)
Record Segmented := {
  seg_self : TableSegment;
  seg_checkpoints : list Z;
  seg_tables : list TableSegment
}.

Definition zip_neighbours {A} (positions : list A) : list (A * A) :=
  zip positions (drop 1 positions).

(** The guarded assertion that opens [segment_by_checkpoints]:
    [if self.start_key and self.end_key: assert all(...)]. It is evaluated
    only when both bounds are truthy. *)
Definition checkpoints_in_range (self : TableSegment) (checkpoints : list Z) : bool :=
  match start_key self, end_key self with
  | Some s, Some e =>
      if truthy (Some s) && truthy (Some e)
      then forallb (λ c, bool_decide (s ≤ c < e)) checkpoints
      else true
  | _, _ => true
  end.

Definition segment_by_checkpoints (self : TableSegment) (checkpoints : list Z) : result Segmented :=
  if negb (checkpoints_in_range self checkpoints) then Raise AssertionError
  else
    let checkpoints := merge_sort Z.le checkpoints in
    let positions := [start_key self] ++ (Some <$> checkpoints) ++ [end_key self] in
    let ranges := zip_neighbours positions in
    let tables := (λ '(s, e), new self s e) <$> ranges in
    Ok {| seg_self := self; seg_checkpoints := checkpoints; seg_tables := tables |}.

(** ** [safezip] *)

Definition safezip {A B} (l1 : list A) (l2 : list B) : result (list (A * B)) :=
  if bool_decide (length l1 = length l2) then Ok (zip l1 l2) else Raise AssertionError.

(** ** [diff_sets] *)

Inductive sign := Plus | Minus.

Global Instance sign_eq_dec : EqDecision sign.
Proof. solve_decision. Defined.

Definition event : Type := sign * row.

Definition event_key (ev : event) : Z := row_key ev.2.

(** The order in which Python iterates over a set is an artefact of its hash
    table. The model takes it as an interface: any enumeration of the
    elements, each once. *)
Class SetOrder := {
  set_iter : list row → list row;
  set_iter_NoDup : ∀ l, NoDup (set_iter l);
  set_iter_elem : ∀ l x, x ∈ set_iter l ↔ x ∈ l
}.

(** One admissible order: the order of the list, duplicates dropped. *)
Global Program Instance insertion_order : SetOrder := {| set_iter := remove_dups |}.
Next Obligation. intros l. apply NoDup_remove_dups. Qed.
Next Obligation. intros l x. apply elem_of_remove_dups. Qed.

(** [d[k].append(ev)] on a [defaultdict(list)], kept in insertion order. *)
Fixpoint dict_append (d : list (Z * list event)) (k : Z) (ev : event) : list (Z * list event) :=
  match d with
  | [] => [(k, [ev])]
  | (k', v) :: d' =>
      if decide (k' = k) then (k', v ++ [ev]) :: d'
      else (k', v) :: dict_append d' k ev
  end.

Definition key_le (x y : Z * list event) : Prop := x.1 ≤ y.1.

Global Instance key_le_dec : RelDecision key_le.
Proof. intros x y. unfold key_le. apply _. Defined.

Definition diff_sets `{SetOrder} (a b : list row) : list event :=
  let d := foldl (λ d i, dict_append d (row_key i) (Plus, i)) [] (set_iter (list_difference a b)) in
  let d := foldl (λ d i, dict_append d (row_key i) (Minus, i)) d (set_iter (list_difference b a)) in
  concat (snd <$> merge_sort key_le d).

(** ** [TableDiffer] *)

(** The configuration fields of the differ. Its [stats] attribute refers to
    a dictionary object; the dictionary itself is the state below. *)
Record TableDiffer := {
  bisection_factor : Z;
  bisection_threshold : Z;
  debug : bool;
  threaded : bool;
  max_threadpool_size : option Z
}.

(** The dictionary behind [self.stats]. *)
Abbreviation Stats := (gmap string Z).

(** How a generator stops: exhausted, by an exception, or not within the
    fuel it was given. *)
Inductive stop :=
  | Exhausted
  | Raised (e : exn)
  | Diverged.

(** What a consumer sees of a generator it runs to the end. *)
Definition output : Type := list event * stop.

(** A generator object: nothing runs until it is consumed. *)
Definition Generator : Type := Stats → Stats * output.

(** The branch [_diff_tables] takes once both [(count, checksum)] pairs are
    in: the early return of lines 258-264 (with the value of its assertion),
    or the comparison [checksum1 != checksum2] of line 269 (with its
    value). *)
Inductive pair_step :=
  | BothEmpty (checksums_null : bool)
  | Compared (differ : bool).

Definition pair_step_of (count1 : Z) (checksum1 : option Z) (count2 : Z) (checksum2 : option Z) : pair_step :=
  if bool_decide (count1 = 0) && bool_decide (count2 = 0)
  then BothEmpty (bool_decide (checksum1 = None) && bool_decide (checksum2 = None))
  else Compared (bool_decide (checksum1 ≠ checksum2)).

(** [self.stats["table1_count"] = self.stats.get("table1_count", 0) + count1] *)
Definition add_table1_count (count1 : Z) (stats : Stats) : Stats :=
  <["table1_count" := default 0 (stats !! "table1_count") + count1]> stats.

(** [_diff_tables], with the recursive generator passed in as [rec]. Its log
    line computes [table2.end_key - table1.start_key], which raises on a
    missing bound. *)
Definition _diff_tables (rec : TableSegment → TableSegment → Z → option Z → Generator)
    (table1 table2 : TableSegment) (level : Z) : Generator := λ stats,
  match end_key table2, start_key table1 with
  | Some _, Some _ =>
      let '(count1, checksum1) := count_and_checksum table1 in
      let '(count2, checksum2) := count_and_checksum table2 in
      match pair_step_of count1 checksum1 count2 checksum2 with
      | BothEmpty true => (stats, ([], Exhausted))
      | BothEmpty false => (stats, ([], Raised AssertionError))
      | Compared differ =>
          let stats := if bool_decide (level = 1) then add_table1_count count1 stats else stats in
          if differ then rec table1 table2 level (Some (Z.max count1 count2)) stats
          else (stats, ([], Exhausted))
      end
  | _, _ => (stats, ([], Raised TypeError))
  end.

(** [for res in self._thread_map(list, diff_iters): yield from res], run in
    child order ([threaded = False]): [list] runs a child to its end; if the
    child raises, what it had yielded into [list] is lost and the exception
    passes on, after the events of the children before it. *)
Fixpoint drain (diff_iters : list Generator) : Generator := λ stats,
  match diff_iters with
  | [] => (stats, ([], Exhausted))
  | child :: rest =>
      match child stats with
      | (stats, (res, Exhausted)) =>
          let '(stats, (evs, st)) := drain rest stats in (stats, (res ++ evs, st))
      | (stats, (_, st)) => (stats, ([], st))
      end
  end.

(** [table1.end_key - table1.start_key], read after the assertion that the
    table is bounded. *)
Definition key_width (table : TableSegment) : Z :=
  match start_key table, end_key table with
  | Some s, Some e => e - s
  | _, _ => 0
  end.

(** The body of [_bisect_and_diff_tables]; [rec] stands for the method
    itself, which [_diff_tables] calls back. *)
Definition bisect_and_diff_body `{SetOrder}
    (rec : TableSegment → TableSegment → Z → option Z → Generator) (self : TableDiffer)
    (table1 table2 : TableSegment) (level : Z) (max_rows : option Z) : Generator := λ stats,
  if negb (is_bounded table1 && is_bounded table2) then (stats, ([], Raised AssertionError))
  else
    let max_rows := default (key_width table1) max_rows in
    if bool_decide (max_rows < bisection_threshold self) then
      let rows1 := get_values table1 in
      let rows2 := get_values table2 in
      (stats, (diff_sets rows1 rows2, Exhausted))
    else
      let segmented :=
        checkpoints ← choose_checkpoints table1 (bisection_factor self - 1);
        segmented1 ← segment_by_checkpoints table1 checkpoints;
        segmented2 ← segment_by_checkpoints table2 (seg_checkpoints segmented1);
        safezip (seg_tables segmented1) (seg_tables segmented2) in
      match segmented with
      | Raise e => (stats, ([], Raised e))
      | Ok pairs =>
          let diff_iters := (λ t, _diff_tables rec t.1 t.2 (level + 1)) <$> pairs in
          drain diff_iters stats
      end.

(** The recursion of the two generators, with [fuel] bounding its depth. *)
Fixpoint _bisect_and_diff_tables (fuel : nat) (self : TableDiffer) `{SetOrder}
    (table1 table2 : TableSegment) (level : Z) (max_rows : option Z) : Generator :=
  match fuel with
  | O => λ stats, (stats, ([], Diverged))
  | S fuel =>
      bisect_and_diff_body (_bisect_and_diff_tables fuel self) self table1 table2 level max_rows
  end.

Definition diff_tables (self : TableDiffer) `{SetOrder} (table1 table2 : TableSegment)
    : result (nat → Generator) :=
  if bool_decide (bisection_threshold self ≤ bisection_factor self) then
    Raise (ValueError "Incorrect param values (bisection factor must be lower than threshold)")
  else if bool_decide (bisection_factor self < 2) then
    Raise (ValueError "Must have at least two segments per iteration (i.e. bisection_factor >= 2)")
  else
    r1 ← query_key_range table1;
    r2 ← query_key_range table2;
    let start_key := Z.min r1.1 r2.1 in
    let end_key := Z.max r1.2 r2.2 + 1 in
    let table1 := new table1 (Some start_key) (Some end_key) in
    let table2 := new table2 (Some start_key) (Some end_key) in
    Ok (λ fuel, _bisect_and_diff_tables fuel self table1 table2 0 None).

(** ** A database that holds a table

    Modelled from the spec: the [Database] drivers and the SQL they run are
    not part of this module. A table is the list of its rows in the canonical
    projection; the key range of the [Select] filters it; [Count()] is the
    number of rows left, [Min]/[Max] are null on no rows, and [Checksum] is
    the sum over the rows of a driver-defined [hash] of the row, null on no
    rows. The update-range bounds are taken as already applied to the
    table. *)

Definition lower_ok (lo : option Z) (k : Z) : Prop :=
  match lo with Some s => s ≤ k | None => True end.

Definition upper_ok (hi : option Z) (k : Z) : Prop :=
  match hi with Some e => k < e | None => True end.

Definition in_key_range (lo hi : option Z) (r : row) : Prop :=
  lower_ok lo (row_key r) ∧ upper_ok hi (row_key r).

Global Instance in_key_range_dec lo hi r : Decision (in_key_range lo hi r).
Proof. unfold in_key_range, lower_ok, upper_ok. destruct lo, hi; apply _. Defined.

Definition select_rows (rows : list row) (lo hi : option Z) : list row :=
  filter (in_key_range lo hi) rows.

Definition sql_min (ks : list Z) : option Z :=
  match ks with [] => None | k :: ks => Some (foldr Z.min k ks) end.

Definition sql_max (ks : list Z) : option Z :=
  match ks with [] => None | k :: ks => Some (foldr Z.max k ks) end.

Definition sum_hash (hash : row → Z) (rows : list row) : Z :=
  foldr (λ r acc, hash r + acc) 0 rows.

Definition checksum_of (hash : row → Z) (rows : list row) : option Z :=
  match rows with [] => None | _ => Some (sum_hash hash rows) end.

Definition table_database (hash : row → Z) (rows : list row) : Database :=
  {| query_min_max q :=
       let ks := row_key <$> select_rows rows (where_start_key q) (where_end_key q) in
       (sql_min ks, sql_max ks);
     query_count_checksum q :=
       let sel := select_rows rows (where_start_key q) (where_end_key q) in
       (Some (Z.of_nat (length sel)), checksum_of hash sel);
     query_rows q := select_rows rows (where_start_key q) (where_end_key q) |}.

(** The whole table as a segment: no key bounds, no time bounds. *)
Definition table_segment (hash : row → Z) (rows : list row) : TableSegment :=
  {| database := table_database hash rows;
     table_path := ["t"];
     key_column := "id";
     update_column := None;
     extra_columns := [];
     start_key := None;
     end_key := None;
     min_time := None;
     max_time := None |}.

(** ** The checkpoint formula

    [checkpoints_from start end_ step n] is the sequence [start + step],
    [start + 2 * step], ... cut to its first [n] values and to the values
    strictly below [end_]. *)

Definition checkpoints_from (start end_ step n : Z) : list Z :=
  filter (λ c, c < end_) ((λ i : nat, start + Z.of_nat i * step) <$> seq 1 (Z.to_nat n)).

(** The step in the words of the spec: the ceiling of [(size + 1) / (n + 1)]. *)
Definition ceil_div (a b : Z) : Z := - ((- a) `div` b).

Definition spec_checkpoints (start end_ n : Z) : list Z :=
  checkpoints_from start end_ (ceil_div (end_ - start + 1) (n + 1)) n.

(** ** Example data *)

(** A stand-in for the drivers' row hash: a positional code of the key and
    of the other columns. *)
Fixpoint string_code (s : string) : Z :=
  match s with
  | EmptyString => 0
  | String c s => Z.of_N (Ascii.N_of_ascii c) + 257 * string_code s
  end.

Definition value_code (v : value) : Z :=
  match v with
  | VInt n => 2 * n
  | VStr s => 2 * string_code s + 1
  | VNull => -1
  end.

Definition example_hash (r : row) : Z :=
  row_key r * 1000003 + foldr (λ v acc, value_code v + 31 * acc) 7 r.2.

Definition differ (factor threshold : Z) : TableDiffer :=
  {| bisection_factor := factor;
     bisection_threshold := threshold;
     debug := false;
     threaded := false;
     max_threadpool_size := None |}.

(** Two tables with distinct keys [1 .. 8]: one row only on the left, one
    only on the right, one changed. *)
Definition left_table : list row :=
  [(1, [VStr "a"]); (2, [VStr "b"]); (3, [VStr "c"]); (8, [VStr "h"])].

Definition right_table : list row :=
  [(1, [VStr "a"]); (3, [VStr "C"]); (5, [VStr "e"]); (8, [VStr "h"])].

(** Two tables in which the key [1] is repeated: five rows each under that
    key, the last of them different, and one more row at key [100]. *)
Definition repeated_left : list row :=
  [(1, [VInt 1]); (1, [VInt 2]); (1, [VInt 3]); (1, [VInt 4]); (1, [VInt 5]); (100, [VInt 0])].

Definition repeated_right : list row :=
  [(1, [VInt 1]); (1, [VInt 2]); (1, [VInt 3]); (1, [VInt 4]); (1, [VInt 6]); (100, [VInt 0])].

(** The same with three rows under the key [1] and keys up to [4]. *)
Definition tripled_left : list row :=
  [(1, [VInt 1]); (1, [VInt 2]); (1, [VInt 3]); (4, [VInt 0])].

Definition tripled_right : list row :=
  [(1, [VInt 1]); (1, [VInt 2]); (1, [VInt 4]); (4, [VInt 0])].

(** A right table with a row below every key of the left one. *)
Definition sparse_left : list row := [(5, [VInt 1])].

Definition sparse_right : list row := [(1, [VInt 1]); (5, [VInt 1])].

(** All sublists of a list; every [select_rows] of a table is one of them. *)
Fixpoint sublists {X} (l : list X) : list (list X) :=
  match l with
  | [] => [[]]
  | x :: l => ((x ::.) <$> sublists l) ++ sublists l
  end.

Definition same_rows (X Y : list row) : Prop :=
  Forall (λ t, t ∈ Y) X ∧ Forall (λ t, t ∈ X) Y.

(** A decidable check that implies [checksums_faithful]: no two sublists of
    the two tables with different rows have the same checksum. *)
Definition no_collision (hash : row → Z) (A B : list row) : Prop :=
  Forall (λ X, Forall (λ Y, checksum_of hash X = checksum_of hash Y → same_rows X Y)
                 (sublists B)) (sublists A).

Global Instance no_collision_dec hash A B : Decision (no_collision hash A B).
Proof. unfold no_collision, same_rows. apply _. Defined.

(** ** Predicates of the statements *)

(** A bounded segment over the keys [[0, 10)] of an empty table, for examples. *)
Definition segment_0_10 : TableSegment :=
  new (table_segment (λ _, 0) []) (Some 0) (Some 10).

(** A table whose key range runs backwards. *)
Definition inverted (t : TableSegment) : Prop :=
  ∃ a b, start_key t = Some a ∧ end_key t = Some b ∧ b < a.

Definition legal_config (self : TableDiffer) : Prop :=
  2 ≤ bisection_factor self ∧ bisection_factor self < bisection_threshold self.

(** Order of the emitted events: ascending keys, and under one key every
    [+] before every [-]. *)
Definition sign_before (e1 e2 : event) : Prop := e1.1 = Plus ∨ e2.1 = Minus.

Definition grouped_before (e1 e2 : event) : Prop :=
  event_key e1 < event_key e2 ∨ (event_key e1 = event_key e2 ∧ sign_before e1 e2).

(** What holds of every list stored in the dictionary [d]. *)
Definition group_ok (kv : Z * list event) : Prop :=
  (∀ ev, ev ∈ kv.2 → event_key ev = kv.1) ∧ StronglySorted sign_before kv.2.

Definition group_plus (kv : Z * list event) : Prop :=
  ∀ ev, ev ∈ kv.2 → event_key ev = kv.1 ∧ ev.1 = Plus.

(** The dictionary [d] after the first loop of [diff_sets], and after the
    second. *)
Definition plus_dict `{SetOrder} (a b : list row) : list (Z * list event) :=
  foldl (λ d i, dict_append d (row_key i) (Plus, i)) [] (set_iter (list_difference a b)).

Definition full_dict `{SetOrder} (a b : list row) : list (Z * list event) :=
  foldl (λ d i, dict_append d (row_key i) (Minus, i)) (plus_dict a b)
    (set_iter (list_difference b a)).

(** A segment of the table [rows] over the keys [[s, e)]. *)
Definition table_range (hash : row → Z) (rows : list row) (s e : Z) : TableSegment :=
  new (table_segment hash rows) (Some s) (Some e).

(** No two different row sets that one key range selects from the two tables
    have the same checksum. *)
Definition checksums_faithful (hash : row → Z) (A B : list row) : Prop :=
  ∀ s e,
    checksum_of hash (select_rows A (Some s) (Some e))
    = checksum_of hash (select_rows B (Some s) (Some e)) →
    ∀ t, t ∈ select_rows A (Some s) (Some e) ↔ t ∈ select_rows B (Some s) (Some e).

(** The events owed for the keys [[s, e)]: each row of one table that the
    other lacks, once, with its sign. *)
Definition events_for (A B : list row) (s e : Z) (evs : list event) : Prop :=
  NoDup evs ∧
  ∀ sg t, (sg, t) ∈ evs ↔
    in_key_range (Some s) (Some e) t ∧
    match sg with Plus => t ∈ A ∧ t ∉ B | Minus => t ∈ B ∧ t ∉ A end.

(** A generator that, from any statistics, runs to its end without an
    exception and yields events that satisfy [P]. *)
Definition settles (g : Generator) (P : list event → Prop) : Prop :=
  ∀ stats, ∃ stats' evs, g stats = (stats', (evs, Exhausted)) ∧ P evs.

(** What a run over [[s, e)] owes once the checksums are trusted. *)
Definition owed_events (hash : row → Z) (A B : list row) (s e : Z) (evs : list event) : Prop :=
  checksums_faithful hash A B → events_for A B s e evs.

(** [g2] does what [g1] does wherever [g1] stops within its fuel. *)
Definition refines (g1 g2 : Generator) : Prop :=
  ∀ stats r, g1 stats = r → r.2.2 ≠ Diverged → g2 stats = r.

(** What a run does to the dictionary: nothing, or one or more additions to
    ["table1_count"] that sum to [n]. *)
Definition bump (d : option Z) (stats : Stats) : Stats :=
  match d with
  | None => stats
  | Some n => add_table1_count n stats
  end.

Definition bump_then (d1 d2 : option Z) : option Z :=
  match d1, d2 with
  | None, d | d, None => d
  | Some n1, Some n2 => Some (n1 + n2)
  end.

(** The event with the other sign. *)
Definition flip_sign (sg : sign) : sign :=
  match sg with Plus => Minus | Minus => Plus end.

Definition flip_event (ev : event) : event := (flip_sign ev.1, ev.2).

(** An event that tells the truth about the tables [A] and [B]: a [+] row is
    in [A] and not in [B], a [-] row is in [B] and not in [A]. *)
Definition genuine (A B : list row) (ev : event) : Prop :=
  match ev.1 with
  | Plus => ev.2 ∈ A ∧ ev.2 ∉ B
  | Minus => ev.2 ∈ B ∧ ev.2 ∉ A
  end.

Definition key_order (e1 e2 : event) : Prop := event_key e1 ≤ event_key e2.

(** Events of a run over the keys [[s, e)]: genuine, with keys in the range,
    in ascending order of the keys. *)
Definition ordered_differences (A B : list row) (s e : Z) (evs : list event) : Prop :=
  Forall (genuine A B) evs ∧
  Forall (λ ev, s ≤ event_key ev < e) evs ∧
  StronglySorted key_order evs.

(** A generator that yields no event and stops in a way that satisfies [Q],
    whatever the dictionary holds. *)
Definition ends_quietly (Q : stop → Prop) (g : Generator) : Prop :=
  ∀ stats, ∃ stats' stp, g stats = (stats', ([], stp)) ∧ Q stp.

(** A database that reports a null checksum wherever it counts no row. *)
Definition null_when_empty (db : Database) : Prop :=
  ∀ q, default 0 (query_count_checksum db q).1 = 0 → (query_count_checksum db q).2 = None.

(** The left-hand counts of the segments between neighbouring positions,
    summed. *)
Definition count_between (table : TableSegment) (positions : list Z) : Z :=
  foldr (λ ab acc, (count_and_checksum (new table (Some ab.1) (Some ab.2))).1 + acc) 0
        (zip_neighbours positions).

(** A generator that reads nothing from the dictionary: its output and what
    it adds are the same from every state. *)
Definition oblivious (g : Generator) : Prop :=
  ∃ d out, ∀ stats, g stats = (bump d stats, out).

(** * Theorems *)

(** ** [split_space] and [choose_checkpoints] *)

Section range_facts.
Variables (start stop step : Z).
Hypothesis step_pos : 0 < step.

Local Abbreviation f := (λ i : nat, start + Z.of_nat i * step).

Lemma range_len_nonneg : 0 ≤ range_len start stop step.
Proof.
  unfold range_len. repeat case_bool_decide; try lia.
  - assert (0 ≤ (stop - 1 - start) `div` step) by (apply Z.div_pos; lia). lia.
Qed.

Lemma below_stop_iff (i : nat) :
  f i < stop ↔ (i < Z.to_nat (range_len start stop step))%nat.
Proof.
  unfold range_len. case_bool_decide as Hc.
  - destruct Hc as [_ Hlt].
    pose proof (Z.div_mod (stop - 1 - start) step ltac:(lia)) as Hdm.
    pose proof (Z.mod_pos_bound (stop - 1 - start) step step_pos) as Hm.
    assert (0 ≤ (stop - 1 - start) `div` step) by (apply Z.div_pos; lia).
    split; intros Hi; [|nia]. apply Nat2Z.inj_lt. rewrite Z2Nat.id by lia. nia.
  - case_bool_decide; [lia|]. simpl. split; [|lia]. intros. exfalso. nia.
Qed.

Lemma filter_below_stop (a n : nat) :
  filter (λ c, c < stop) (f <$> seq a n)
  = f <$> seq a (n `min` (Z.to_nat (range_len start stop step) - a)).
Proof.
  revert a. induction n as [|n IH]; intros a; [done|].
  cbn [seq fmap list_fmap]. rewrite filter_cons. case_decide as Hd.
  - apply below_stop_iff in Hd. rewrite IH.
    replace (S n `min` (Z.to_nat (range_len start stop step) - a))%nat
      with (S (n `min` (Z.to_nat (range_len start stop step) - S a)))%nat by lia.
    done.
  - rewrite below_stop_iff in Hd. rewrite IH.
    replace (n `min` (Z.to_nat (range_len start stop step) - S a))%nat with 0%nat by lia.
    replace (S n `min` (Z.to_nat (range_len start stop step) - a))%nat with 0%nat by lia.
    done.
Qed.

Lemma py_slice_range (n : Z) :
  0 ≤ n →
  py_slice (f <$> seq 0 (Z.to_nat (range_len start stop step))) 1 (n + 1)
  = checkpoints_from start stop step n.
Proof using step_pos.
  intros Hn. unfold checkpoints_from. rewrite filter_below_stop.
  unfold py_slice. rewrite length_fmap, length_seq.
  pose proof range_len_nonneg as Hl.
  set (L := Z.to_nat (range_len start stop step)).
  unfold slice_index. rewrite !bool_decide_eq_false_2 by lia.
  rewrite <- fmap_drop, <- fmap_take. f_equal.
  destruct (decide (L = 0%nat)) as [HL|HL].
  { rewrite HL. simpl. by rewrite take_nil, Nat.min_0_r. }
  rewrite drop_seq, take_seq. f_equal; lia.
Qed.
End range_facts.

Lemma split_space_pos_step (start end_ count : Z) :
  0 ≤ count → 0 < (end_ - start + 1) `div` (count + 1) →
  split_space start end_ count
  = Ok (checkpoints_from start end_ ((end_ - start + 1) `div` (count + 1)) count).
Proof.
  intros Hc Hs. unfold split_space, py_floordiv, py_range.
  rewrite bool_decide_eq_false_2 by lia. cbn [mbind result_bind].
  rewrite bool_decide_eq_false_2 by lia. cbn [mbind result_bind].
  f_equal. by apply py_slice_range.
Qed.

Lemma split_space_zero_step (start end_ count : Z) :
  count ≠ -1 → (end_ - start + 1) `div` (count + 1) = 0 →
  split_space start end_ count = Raise (ValueError "range() arg 3 must not be zero").
Proof.
  intros Hc Hs. unfold split_space, py_floordiv, py_range.
  rewrite bool_decide_eq_false_2 by lia. cbn [mbind result_bind].
  by rewrite bool_decide_eq_true_2 by lia.
Qed.

Lemma elem_of_checkpoints_from (start end_ step n c : Z) :
  c ∈ checkpoints_from start end_ step n ↔
  c < end_ ∧ ∃ i, 1 ≤ i ≤ n ∧ c = start + i * step.
Proof.
  unfold checkpoints_from. rewrite list_elem_of_filter, list_elem_of_fmap.
  split.
  - intros [Hlt (i & -> & Hi)]. apply elem_of_seq in Hi. split; [done|].
    exists (Z.of_nat i). split; [lia|done].
  - intros [Hlt (i & Hi & ->)]. split; [done|]. exists (Z.to_nat i).
    rewrite Z2Nat.id by lia. split; [done|]. apply elem_of_seq. lia.
Qed.

(** C3 (as amended). [choose_checkpoints] asserts that the segment is
    bounded; on a bounded segment and for [n ≥ 1] the step is the floor (Python's
    [//]), not the ceiling, of [(size + 1) / (n + 1)]: when that step is
    positive the checkpoints are [startKey + step], [startKey + 2·step], ...
    cut to the first [n] values strictly below [endKey], and when it is zero
    [range] raises [ValueError]. *)
Theorem choose_checkpoints_floor_step (self : TableSegment) (n : Z) :
  1 ≤ n →
  (is_bounded self = false → choose_checkpoints self n = Raise AssertionError) ∧
  (∀ s e, start_key self = Some s → end_key self = Some e →
     let step := (e - s + 1) `div` (n + 1) in
     (0 < step → choose_checkpoints self n = Ok (checkpoints_from s e step n)) ∧
     (step = 0 →
        choose_checkpoints self n = Raise (ValueError "range() arg 3 must not be zero"))).
Proof.
  intros Hn. split.
  - unfold is_bounded, choose_checkpoints.
    destruct (start_key self), (end_key self); simpl; intros; done.
  - intros s e Hs He step. unfold choose_checkpoints. rewrite Hs, He. split; intros Hstep.
    + apply split_space_pos_step; [lia|done].
    + apply split_space_zero_step; [lia|done].
Qed.

Lemma choose_checkpoints_floor_step_witness :
  1 ≤ 2 ∧ start_key segment_0_10 = Some 0 ∧ end_key segment_0_10 = Some 10 ∧
  0 < (10 - 0 + 1) `div` (2 + 1) ∧
  choose_checkpoints segment_0_10 2 = Ok (checkpoints_from 0 10 ((10 - 0 + 1) `div` (2 + 1)) 2).
Proof.
  split; [lia|]. split; [reflexivity|]. split; [reflexivity|]. split; [reflexivity|].
  destruct (choose_checkpoints_floor_step segment_0_10 2 ltac:(lia)) as [_ H].
  destruct (H 0 10 eq_refl eq_refl) as [Hpos _].
  apply Hpos. reflexivity.
Defined.

(** C3, as the spec words it, fails on the segment [[0, 10)] with [n = 2]:
    the code steps by [11 // 3 = 3] and returns [3, 6]; the ceiling gives a
    step of [4] and the values [4, 8]. *)
Lemma choose_checkpoints_not_ceiling :
  is_bounded segment_0_10 = true ∧
  choose_checkpoints segment_0_10 2 = Ok [3; 6] ∧
  spec_checkpoints 0 10 2 = [4; 8] ∧
  choose_checkpoints segment_0_10 2 ≠ Ok (spec_checkpoints 0 10 2).
Proof. repeat split; try reflexivity. vm_compute. discriminate. Qed.

(** On a bounded segment narrower than [n] keys the floor step is zero and
    the call raises, where the ceiling would give a step of one. *)
Example choose_checkpoints_raises_on_narrow_segment :
  choose_checkpoints (new segment_0_10 (Some 0) (Some 1)) 3
  = Raise (ValueError "range() arg 3 must not be zero") ∧
  spec_checkpoints 0 1 3 = [].
Proof. split; reflexivity. Qed.

(** ** [segment_by_checkpoints] *)

(** [new] replaces the key bounds only, so the copy passes [__post_init__]
    whenever the segment did. *)
Lemma new_post_init (self : TableSegment) (s e : option Z) :
  __post_init__ (new self s e) = __post_init__ self.
Proof. reflexivity. Qed.

Lemma zip_neighbours_cons {A} (x y : A) l :
  zip_neighbours (x :: y :: l) = (x, y) :: zip_neighbours (y :: l).
Proof. done. Qed.

Lemma length_zip_neighbours {A} (l : list A) :
  length (zip_neighbours l) = pred (length l).
Proof.
  unfold zip_neighbours. rewrite length_zip_with, length_drop. lia.
Qed.

Lemma zip_neighbours_fmap {A B} (f : A → B) (l : list A) :
  zip_neighbours (f <$> l) = (λ p, (f p.1, f p.2)) <$> zip_neighbours l.
Proof.
  induction l as [|x [|y l] IH]; [done..|].
  change (f <$> x :: y :: l) with (f x :: f y :: (f <$> l)).
  rewrite !zip_neighbours_cons. simpl. f_equal. exact IH.
Qed.

Lemma elem_of_zip_neighbours {A} (a b : A) (l : list A) :
  (a, b) ∈ zip_neighbours l ↔ ∃ l1 l2, l = l1 ++ a :: b :: l2.
Proof.
  induction l as [|x [|y l] IH].
  - split; [by intros ?%elem_of_nil|]. intros ([|??] & ? & ?); done.
  - split; [by intros ?%elem_of_nil|]. intros ([|? [|??]] & ? & ?); done.
  - rewrite zip_neighbours_cons, elem_of_cons, IH. split.
    + intros [[= -> ->]|(l1 & l2 & Hl)]; [by exists [], l|].
      exists (x :: l1), l2. by rewrite Hl.
    + intros ([|x' l1] & l2 & Hl); simplify_eq/=; [by left|]. right. eauto.
Qed.

Lemma lookup_zip_neighbours {A} (l : list A) (i : nat) (a b : A) :
  zip_neighbours l !! i = Some (a, b) ↔ l !! i = Some a ∧ l !! S i = Some b.
Proof.
  unfold zip_neighbours. rewrite lookup_zip_with_Some, (lookup_drop l 1 i). simpl. split.
  - intros (x & y & [= -> ->] & ? & ?). done.
  - intros [? ?]. eauto.
Qed.

Lemma neighbours_of_sorted (l : list Z) (a b : Z) :
  StronglySorted Z.le l → (a, b) ∈ zip_neighbours l → a ≤ b.
Proof.
  intros Hs (l1 & l2 & ->)%elem_of_zip_neighbours.
  apply StronglySorted_app in Hs as (_ & _ & Hs).
  apply StronglySorted_cons in Hs as [Hall _].
  by apply Forall_cons in Hall as [? _].
Qed.

Lemma neighbours_elem_of {A} (l : list A) (a b : A) :
  (a, b) ∈ zip_neighbours l → a ∈ l ∧ b ∈ l.
Proof. intros (l1 & l2 & ->)%elem_of_zip_neighbours. set_solver. Qed.

(** The positions [[s] ++ checkpoints ++ [e]] form an ascending chain as soon
    as the sorted checkpoints lie between [s] and [e]. *)
Lemma positions_sorted (s e : Z) (cs : list Z) :
  StronglySorted Z.le cs → (∀ c, c ∈ cs → s ≤ c ≤ e) → s ≤ e →
  StronglySorted Z.le ([s] ++ cs ++ [e]).
Proof.
  intros Hs Hin Hse. apply StronglySorted_app. split_and!.
  - intros x1 x2 ->%list_elem_of_singleton [Hx|Hx%list_elem_of_singleton]%elem_of_app.
    + by apply Hin.
    + by subst.
  - repeat constructor.
  - apply StronglySorted_app. split_and!; [|done|repeat constructor].
    intros x1 x2 Hx ->%list_elem_of_singleton. by apply Hin.
Qed.

Lemma merge_sort_le_sorted (l : list Z) : StronglySorted Z.le (merge_sort Z.le l).
Proof. apply StronglySorted_merge_sort; apply _. Qed.

Lemma elem_of_merge_sort_le (l : list Z) (c : Z) : c ∈ merge_sort Z.le l ↔ c ∈ l.
Proof. by rewrite merge_sort_Permutation. Qed.

(** Sorting what is sorted changes nothing: the second
    [segment_by_checkpoints] of a bisection step sees the list the first one
    left. *)
Lemma merge_sort_le_idemp (l : list Z) : merge_sort Z.le (merge_sort Z.le l) = merge_sort Z.le l.
Proof.
  apply (Sorted_unique Z.le).
  - apply Sorted_merge_sort; apply _.
  - apply Sorted_merge_sort; apply _.
  - apply merge_sort_Permutation.
Qed.

(** The tables a passing call returns, with the positions as integers. *)
Lemma segment_by_checkpoints_tables (self : TableSegment) (s e : Z) (checkpoints : list Z) :
  start_key self = Some s → end_key self = Some e →
  checkpoints_in_range self checkpoints = true →
  segment_by_checkpoints self checkpoints
  = Ok {| seg_self := self;
          seg_checkpoints := merge_sort Z.le checkpoints;
          seg_tables := (λ p, new self (Some p.1) (Some p.2))
                          <$> zip_neighbours ([s] ++ merge_sort Z.le checkpoints ++ [e]) |}.
Proof.
  intros Hs He Hok. unfold segment_by_checkpoints. rewrite Hok, Hs, He. simpl negb. cbv iota.
  do 2 f_equal.
  change ([Some s] ++ (Some <$> merge_sort Z.le checkpoints) ++ [Some e])
    with (Some s :: ((Some <$> merge_sort Z.le checkpoints) ++ (Some <$> [e]))).
  rewrite <- fmap_app.
  change (Some s :: (Some <$> merge_sort Z.le checkpoints ++ [e]))
    with (Some <$> ([s] ++ merge_sort Z.le checkpoints ++ [e])).
  rewrite zip_neighbours_fmap, <- list_fmap_compose.
  apply list_fmap_ext. by intros i [a b] _.
Qed.

Lemma checkpoints_in_range_true (self : TableSegment) (s e : Z) (checkpoints : list Z) :
  start_key self = Some s → end_key self = Some e →
  (∀ c, c ∈ checkpoints → s ≤ c < e) →
  checkpoints_in_range self checkpoints = true.
Proof.
  intros Hs He Hin. unfold checkpoints_in_range. rewrite Hs, He.
  destruct (truthy (Some s) && truthy (Some e)); [|done].
  apply Is_true_eq_true, forallb_True, Forall_forall.
  intros c Hc. apply bool_decide_pack. by apply Hin.
Qed.

Lemma tables_lookup (self : TableSegment) (l : list Z) (i : nat) (t : TableSegment) :
  ((λ p, new self (Some p.1) (Some p.2)) <$> zip_neighbours l) !! i = Some t ↔
  ∃ a b, l !! i = Some a ∧ l !! S i = Some b ∧ t = new self (Some a) (Some b).
Proof.
  rewrite list_lookup_fmap, fmap_Some. split.
  - intros ([a b] & Hl%lookup_zip_neighbours & ->). naive_solver.
  - intros (a & b & Ha & Hb & ->). exists (a, b). by rewrite lookup_zip_neighbours.
Qed.

(** C7. On a bounded segment, checkpoints that all lie in
    [[startKey, endKey)] give exactly [n + 1] tables; they are copies of the
    segment whose key ranges are the neighbouring pairs of
    [startKey, c₁, ..., cₙ, endKey] with the checkpoints sorted, so each table
    ends where the next starts, the first starts at [startKey] and the last
    ends at [endKey]; the receiver is left as it was (the caller's list is
    sorted in place). *)
Theorem segment_by_checkpoints_contiguous (self : TableSegment) (s e : Z) (checkpoints : list Z) :
  start_key self = Some s → end_key self = Some e →
  (∀ c, c ∈ checkpoints → s ≤ c < e) →
  ∃ sorted tables,
    segment_by_checkpoints self checkpoints
      = Ok {| seg_self := self; seg_checkpoints := sorted; seg_tables := tables |} ∧
    Sorted Z.le sorted ∧ sorted ≡ₚ checkpoints ∧
    length tables = S (length checkpoints) ∧
    tables = (λ p, new self (Some p.1) (Some p.2)) <$> zip_neighbours ([s] ++ sorted ++ [e]) ∧
    (∀ i t t', tables !! i = Some t → tables !! S i = Some t' → end_key t = start_key t') ∧
    (∃ t, tables !! 0%nat = Some t ∧ start_key t = Some s) ∧
    (∃ t, tables !! length checkpoints = Some t ∧ end_key t = Some e) ∧
    (s ≤ e → ∀ t, t ∈ tables →
       ∃ a b, start_key t = Some a ∧ end_key t = Some b ∧ s ≤ a ∧ a ≤ b ∧ b ≤ e).
Proof.
  intros Hs He Hin.
  set (sorted := merge_sort Z.le checkpoints).
  assert (Hperm : sorted ≡ₚ checkpoints) by apply merge_sort_Permutation.
  assert (Hlen : length sorted = length checkpoints) by by rewrite Hperm.
  exists sorted, ((λ p, new self (Some p.1) (Some p.2)) <$> zip_neighbours ([s] ++ sorted ++ [e])).
  split_and!.
  - apply segment_by_checkpoints_tables; [done..|]. by eapply checkpoints_in_range_true.
  - apply Sorted_merge_sort; apply _.
  - done.
  - rewrite length_fmap, length_zip_neighbours. simpl. rewrite length_app. simpl. lia.
  - done.
  - intros i t t' (a & b & _ & Hb & ->)%tables_lookup (a' & b' & Ha' & _ & ->)%tables_lookup.
    simpl. congruence.
  - destruct (sorted ++ [e]) as [|x l] eqn:Hl; [by destruct sorted|].
    exists (new self (Some s) (Some x)). split; [|done].
    apply tables_lookup. by exists s, x.
  - assert (is_Some (([s] ++ sorted ++ [e]) !! length checkpoints)) as [a Ha].
    { apply lookup_lt_is_Some. simpl. rewrite length_app. simpl. lia. }
    exists (new self (Some a) (Some e)). split; [|done].
    apply tables_lookup. exists a, e. split_and!; [done| |done].
    simpl. rewrite <- Hlen. by rewrite list_lookup_middle.
  - intros Hse t ([a b] & -> & Hab)%list_elem_of_fmap. simpl. exists a, b.
    assert (Hall : ∀ c, c ∈ [s] ++ sorted ++ [e] → s ≤ c ≤ e).
    { intros c. rewrite !elem_of_app, !list_elem_of_singleton, Hperm.
      intros [->|[Hc%Hin| ->]]; lia. }
    assert (Hchain : StronglySorted Z.le ([s] ++ sorted ++ [e])).
    { apply positions_sorted; [apply merge_sort_le_sorted| |done].
      intros c Hc. apply Hall. set_solver. }
    pose proof (neighbours_of_sorted _ _ _ Hchain Hab).
    apply neighbours_elem_of in Hab as [Ha%Hall Hb%Hall].
    split_and!; [done|done|lia..].
Qed.

Lemma segment_by_checkpoints_contiguous_witness :
  start_key segment_0_10 = Some 0 ∧ end_key segment_0_10 = Some 10 ∧
  (∀ c, c ∈ [7; 3] → 0 ≤ c < 10) ∧
  ∃ tables,
    segment_by_checkpoints segment_0_10 [7; 3]
      = Ok {| seg_self := segment_0_10; seg_checkpoints := [3; 7]; seg_tables := tables |} ∧
    (λ t, (start_key t, end_key t)) <$> tables
      = [(Some 0, Some 3); (Some 3, Some 7); (Some 7, Some 10)].
Proof.
  assert (Hin : ∀ c, c ∈ [7; 3] → 0 ≤ c < 10).
  { intros c Hc. repeat (apply elem_of_cons in Hc as [->|Hc]; [lia|]). by apply elem_of_nil in Hc. }
  split; [reflexivity|]. split; [reflexivity|]. split; [exact Hin|].
  destruct (segment_by_checkpoints_contiguous segment_0_10 0 10 [7; 3] eq_refl eq_refl Hin)
    as (sorted & tables & Heq & _).
  vm_compute in Heq. injection Heq as <- <-.
  eexists. split; reflexivity.
Defined.


(** C10. The range assertion of [segment_by_checkpoints] is guarded by the
    truth value of the bounds, so on a bounded segment with [start_key = 0] it
    is skipped: every checkpoint list is accepted, and the returned tables
    include one with an inverted key range exactly when some checkpoint lies
    below [0] or above [end_key]. *)
Theorem segment_by_checkpoints_unchecked_at_zero (self : TableSegment) (e : Z) (checkpoints : list Z) :
  start_key self = Some 0 → end_key self = Some e → 0 ≤ e →
  checkpoints_in_range self checkpoints = true ∧
  ∃ r, segment_by_checkpoints self checkpoints = Ok r ∧
       ((∃ c, c ∈ checkpoints ∧ (c < 0 ∨ e < c)) ↔ (∃ t, t ∈ seg_tables r ∧ inverted t)).
Proof.
  intros Hs He He0.
  assert (Hok : checkpoints_in_range self checkpoints = true).
  { unfold checkpoints_in_range. by rewrite Hs, He. }
  split; [done|]. eexists. split; [by apply segment_by_checkpoints_tables|].
  simpl. set (sorted := merge_sort Z.le checkpoints).
  assert (Hperm : sorted ≡ₚ checkpoints) by apply merge_sort_Permutation.
  assert (Hsorted : StronglySorted Z.le sorted) by apply merge_sort_le_sorted.
  clearbody sorted. split.
  - intros (c & Hc & Hout). rewrite <- Hperm in Hc. destruct Hout as [Hneg|Hbig].
    + destruct sorted as [|c1 rest] eqn:Hl; [by apply elem_of_nil in Hc|].
      assert (c1 ≤ c).
      { apply elem_of_cons in Hc as [->|Hc]; [lia|].
        apply StronglySorted_cons in Hsorted as [Hall _].
        by eapply Forall_forall in Hall. }
      exists (new self (Some 0) (Some c1)). split.
      * apply list_elem_of_fmap. exists (0, c1). split; [done|]. left.
      * exists 0, c1. split_and!; [done..|lia].
    + assert (sorted = [] ∨ ∃ cn init, sorted = init ++ [cn]) as [Hl|(cn & init & Hl)].
      { clear. destruct sorted using rev_ind; eauto. }
      { rewrite Hl in Hc. by apply elem_of_nil in Hc. }
      assert (c ≤ cn).
      { rewrite Hl in Hc, Hsorted. apply elem_of_app in Hc as [Hc|Hc%list_elem_of_singleton]; [|lia].
        apply StronglySorted_app in Hsorted as (Hle & _ & _). apply Hle; [done|left]. }
      exists (new self (Some cn) (Some e)). split.
      * apply list_elem_of_fmap. exists (cn, e). split; [done|].
        apply elem_of_zip_neighbours. exists ([0] ++ init), []. rewrite Hl.
        by rewrite <- !app_assoc.
      * exists cn, e. split_and!; [done..|lia].
  - intros (t & ([a b] & -> & Hab)%list_elem_of_fmap & (a' & b' & [= <-] & [= <-] & Hlt)).
    simpl in Hlt.
    destruct (decide (Exists (λ c, c < 0 ∨ e < c) checkpoints)) as [Hex|Hnex].
    { apply Exists_exists in Hex as (c & Hc & Hout). eauto. }
    exfalso. rewrite <- Forall_Exists_neg, Forall_forall in Hnex.
    assert (Hchain : StronglySorted Z.le ([0] ++ sorted ++ [e])).
    { apply positions_sorted; [done| |done].
      intros c Hc. rewrite Hperm in Hc. apply Hnex in Hc. lia. }
    pose proof (neighbours_of_sorted _ _ _ Hchain Hab). lia.
Qed.

Lemma segment_by_checkpoints_unchecked_at_zero_witness :
  start_key segment_0_10 = Some 0 ∧ end_key segment_0_10 = Some 10 ∧ 0 ≤ 10 ∧
  checkpoints_in_range segment_0_10 [20; 5] = true ∧
  ∃ r, segment_by_checkpoints segment_0_10 [20; 5] = Ok r ∧
       (λ t, (start_key t, end_key t)) <$> seg_tables r
         = [(Some 0, Some 5); (Some 5, Some 20); (Some 20, Some 10)].
Proof.
  split; [reflexivity|]. split; [reflexivity|]. split; [lia|].
  destruct (segment_by_checkpoints_unchecked_at_zero segment_0_10 10 [20; 5] eq_refl eq_refl
              ltac:(lia)) as [Hskip (r & Heq & _)].
  split; [exact Hskip|]. exists r. split; [exact Heq|].
  vm_compute in Heq. injection Heq as <-. reflexivity.
Defined.

(** With both bounds other than zero the assertion is evaluated, and a
    checkpoint outside the range is refused. *)
Lemma segment_by_checkpoints_checked (self : TableSegment) (s e c : Z) (checkpoints : list Z) :
  start_key self = Some s → end_key self = Some e → s ≠ 0 → e ≠ 0 →
  c ∈ checkpoints → ¬ (s ≤ c < e) →
  segment_by_checkpoints self checkpoints = Raise AssertionError.
Proof.
  intros Hs He Hs0 He0 Hc Hout. unfold segment_by_checkpoints, checkpoints_in_range.
  rewrite Hs, He. simpl. rewrite !bool_decide_eq_true_2 by done. simpl.
  destruct (forallb _ checkpoints) eqn:Hall; [|done].
  apply Is_true_eq_left, forallb_True in Hall. rewrite Forall_forall in Hall.
  apply Hall, bool_decide_unpack in Hc. done.
Qed.

Example segment_by_checkpoints_checked_elsewhere :
  segment_by_checkpoints (new segment_0_10 (Some 1) (Some 10)) [20; 5] = Raise AssertionError.
Proof. reflexivity. Qed.

(** ** [_diff_tables]: one pair of segments *)

Section pair.
Context `{SetOrder}.

(** C4. For a pair of segments with the bounds its log line reads, and with
    [(count, checksum)] in for both sides: when both counts are zero the
    generator asserts that both checksums are null and returns without an
    event; otherwise, when the checksums differ, it continues as
    [_bisect_and_diff_tables] on the same pair with
    [max_rows = max(count1, count2)]; and when they are equal it yields
    nothing. *)
Theorem diff_tables_pair_decision (self : TableDiffer) (fuel : nat)
    (table1 table2 : TableSegment) (level : Z) (stats : Stats)
    (count1 count2 : Z) (checksum1 checksum2 : option Z) :
  is_Some (start_key table1) → is_Some (end_key table2) →
  count_and_checksum table1 = (count1, checksum1) →
  count_and_checksum table2 = (count2, checksum2) →
  let run := _diff_tables (_bisect_and_diff_tables fuel self) table1 table2 level stats in
  let counted := if bool_decide (level = 1) then add_table1_count count1 stats else stats in
  (count1 = 0 ∧ count2 = 0 →
     (checksum1 = None ∧ checksum2 = None → run = (stats, ([], Exhausted))) ∧
     (¬ (checksum1 = None ∧ checksum2 = None) → run = (stats, ([], Raised AssertionError)))) ∧
  (¬ (count1 = 0 ∧ count2 = 0) →
     (checksum1 ≠ checksum2 →
        run = _bisect_and_diff_tables fuel self table1 table2 level
                (Some (Z.max count1 count2)) counted) ∧
     (checksum1 = checksum2 → run = (counted, ([], Exhausted)))).
Proof.
  intros [s Hs] [e He] H1 H2 run counted. subst run counted.
  unfold _diff_tables, pair_step_of. rewrite Hs, He, H1, H2. split.
  - intros [-> ->]. simpl. split.
    + intros [-> ->]. done.
    + intros Hn. destruct checksum1, checksum2; simpl; try done. by destruct Hn.
  - intros Hn.
    assert (bool_decide (count1 = 0) && bool_decide (count2 = 0) = false) as ->.
    { apply andb_false_iff. rewrite !bool_decide_eq_false. destruct (decide (count1 = 0)); naive_solver. }
    split; intros Hc.
    + by rewrite bool_decide_eq_true_2.
    + by rewrite bool_decide_eq_false_2 by naive_solver.
Qed.

(** C5 (as amended). For a pair of segments with the bounds its log line
    reads: the early return is taken exactly when both counts are zero. In
    every other case line 269 compares the two checksums, null or not: a null
    checksum against a non-null one compares as different and the pair is
    passed on to [_bisect_and_diff_tables]; two equal checksums (two nulls
    too) end the pair without events. *)
Theorem null_checksum_short_circuit (self : TableDiffer) (fuel : nat)
    (table1 table2 : TableSegment) (level : Z) (stats : Stats)
    (count1 count2 : Z) (checksum1 checksum2 : option Z) :
  is_Some (start_key table1) → is_Some (end_key table2) →
  count_and_checksum table1 = (count1, checksum1) →
  count_and_checksum table2 = (count2, checksum2) →
  ((∃ b, pair_step_of count1 checksum1 count2 checksum2 = BothEmpty b) ↔ count1 = 0 ∧ count2 = 0) ∧
  (¬ (count1 = 0 ∧ count2 = 0) →
     pair_step_of count1 checksum1 count2 checksum2 = Compared (bool_decide (checksum1 ≠ checksum2)) ∧
     ((checksum1 = None ↔ checksum2 ≠ None) →
        _diff_tables (_bisect_and_diff_tables fuel self) table1 table2 level stats
        = _bisect_and_diff_tables fuel self table1 table2 level (Some (Z.max count1 count2))
            (if bool_decide (level = 1) then add_table1_count count1 stats else stats))).
Proof.
  intros [s Hs] [e He] H1 H2.
  assert (Hcmp : ¬ (count1 = 0 ∧ count2 = 0) →
                 pair_step_of count1 checksum1 count2 checksum2
                 = Compared (bool_decide (checksum1 ≠ checksum2))).
  { intros Hn. unfold pair_step_of.
    assert (bool_decide (count1 = 0) && bool_decide (count2 = 0) = false) as ->; [|done].
    apply andb_false_iff. rewrite !bool_decide_eq_false. destruct (decide (count1 = 0)); naive_solver. }
  split_and!.
  - split.
    + intros [b Hb]. destruct (decide (count1 = 0 ∧ count2 = 0)) as [|Hn]; [done|].
      rewrite (Hcmp Hn) in Hb. done.
    + intros [-> ->]. unfold pair_step_of. simpl. eauto.
  - intros Hn. split; [by apply Hcmp|]. intros Hnull.
    unfold _diff_tables. rewrite Hs, He, H1, H2, (Hcmp Hn).
    rewrite bool_decide_eq_true_2; [done|].
    intros ->. destruct checksum2; naive_solver.
Qed.
End pair.

(** On segments without key bounds the log line of [_diff_tables] raises
    before any query is made. *)
Example diff_tables_pair_needs_bounds :
  _diff_tables (_bisect_and_diff_tables 1 (differ 2 3))
    (table_segment example_hash sparse_left) (table_segment example_hash sparse_right) 1 ∅
  = (∅, ([], Raised TypeError)).
Proof. reflexivity. Qed.

(** ** [diff_tables]: bound discovery *)

Lemma query_key_range_Ok (table : TableSegment) (min_key max_key : Z) :
  query_min_max (database table) (_make_select table) = (Some min_key, Some max_key) →
  query_key_range table = Ok (min_key, max_key).
Proof. unfold query_key_range. by intros ->. Qed.

Lemma query_key_range_Raise (table : TableSegment) (m : option Z * option Z) :
  query_min_max (database table) (_make_select table) = m →
  m.1 = None ∨ m.2 = None →
  query_key_range table = Raise (ValueError "Table appears to be empty").
Proof.
  unfold query_key_range. intros ->. destruct m as [[?|] [?|]]; simpl; intros [?|?]; done.
Qed.

(** C6. Under a legal configuration [diff_tables] queries the key range of
    both tables; with [(min1, max1)] and [(min2, max2)] it rebuilds both
    segments over [[min(min1, min2), max(max1, max2) + 1)] and returns the
    generator of [_bisect_and_diff_tables] on them (level 0, no [max_rows]).
    When the minimum or the maximum of either side is null, it raises
    [ValueError] and returns no generator. *)
Theorem diff_tables_bound_discovery `{SetOrder} (self : TableDiffer) (table1 table2 : TableSegment) :
  legal_config self →
  (∀ min1 max1 min2 max2,
     query_min_max (database table1) (_make_select table1) = (Some min1, Some max1) →
     query_min_max (database table2) (_make_select table2) = (Some min2, Some max2) →
     let start := Z.min min1 min2 in
     let end_ := Z.max max1 max2 + 1 in
     diff_tables self table1 table2
     = Ok (λ fuel, _bisect_and_diff_tables fuel self
                     (new table1 (Some start) (Some end_))
                     (new table2 (Some start) (Some end_)) 0 None)) ∧
  (∀ m1 m2,
     query_min_max (database table1) (_make_select table1) = m1 →
     query_min_max (database table2) (_make_select table2) = m2 →
     m1.1 = None ∨ m1.2 = None ∨ m2.1 = None ∨ m2.2 = None →
     diff_tables self table1 table2 = Raise (ValueError "Table appears to be empty")).
Proof.
  intros [Hf Ht]. unfold diff_tables.
  rewrite !bool_decide_eq_false_2 by lia. split.
  - intros min1 max1 min2 max2 H1 H2.
    by rewrite (query_key_range_Ok _ _ _ H1), (query_key_range_Ok _ _ _ H2).
  - intros m1 m2 H1 H2 Hnull.
    destruct (decide (m1.1 = None ∨ m1.2 = None)) as [Hn1|Hn1].
    + by rewrite (query_key_range_Raise _ _ H1 Hn1).
    + assert (m2.1 = None ∨ m2.2 = None) as Hn2 by tauto.
      rewrite (query_key_range_Raise _ _ H2 Hn2).
      destruct m1 as [[min1|] [max1|]]; simpl in Hn1; [|tauto..].
      by rewrite (query_key_range_Ok _ _ _ H1).
Qed.

(** ** [diff_sets] *)

Lemma dict_append_keys (d : list (Z * list event)) (k : Z) (ev : event) :
  (dict_append d k ev).*1 = if decide (k ∈ d.*1) then d.*1 else d.*1 ++ [k].
Proof.
  induction d as [|[k' v] d IH]; csimpl.
  - destruct (decide (k ∈ [])) as [Hin|_]; [by apply elem_of_nil in Hin|done].
  - destruct (decide (k' = k)) as [->|Hne]; csimpl.
    + destruct (decide (k ∈ k :: d.*1)) as [_|Hn]; [done|]. destruct Hn. left.
    + rewrite IH. destruct (decide (k ∈ d.*1)) as [Hin|Hin].
      * destruct (decide (k ∈ k' :: d.*1)) as [_|Hn]; [done|]. destruct Hn. by right.
      * destruct (decide (k ∈ k' :: d.*1)) as [Hn|_]; [|done].
        apply elem_of_cons in Hn. naive_solver.
Qed.

Lemma dict_append_NoDup (d : list (Z * list event)) (k : Z) (ev : event) :
  NoDup d.*1 → NoDup (dict_append d k ev).*1.
Proof.
  intros Hd. rewrite dict_append_keys. destruct (decide (k ∈ d.*1)); [done|].
  apply NoDup_app. split_and!; [done| |apply NoDup_singleton].
  intros x Hx ->%list_elem_of_singleton. done.
Qed.

Lemma dict_append_Forall (Q : Z * list event → Prop) (d : list (Z * list event)) (k : Z) (ev : event) :
  Forall Q d → (∀ v, Q (k, v) → Q (k, v ++ [ev])) → Q (k, [ev]) →
  Forall Q (dict_append d k ev).
Proof.
  intros Hd Happ Hnew. induction Hd as [|[k' v] d Hkv Hd IH]; csimpl.
  - by repeat constructor.
  - destruct (decide (k' = k)) as [->|Hne]; constructor; auto.
Qed.

Lemma dict_append_concat (d : list (Z * list event)) (k : Z) (ev : event) :
  concat (dict_append d k ev).*2 ≡ₚ concat d.*2 ++ [ev].
Proof.
  induction d as [|[k' v] d IH]; csimpl; [done|].
  destruct (decide (k' = k)) as [->|Hne]; csimpl.
  - rewrite <- !app_assoc. f_equiv. apply Permutation_app_comm.
  - by rewrite IH, app_assoc.
Qed.

Lemma group_plus_ok (kv : Z * list event) : group_plus kv → group_ok kv.
Proof.
  destruct kv as [k v]. unfold group_plus, group_ok. simpl. intros Hv. split; [naive_solver|].
  induction v as [|e v IH]; constructor.
  - apply IH. intros ev Hev. apply Hv. by right.
  - apply Forall_forall. intros e' _. left. apply Hv. left.
Qed.

Lemma StronglySorted_snoc {A} (R : relation A) (l : list A) (x : A) :
  StronglySorted R l → (∀ y, y ∈ l → R y x) → StronglySorted R (l ++ [x]).
Proof.
  intros Hl Hx. apply StronglySorted_app. split_and!; [|done|repeat constructor].
  intros x1 x2 Hx1 ->%list_elem_of_singleton. by apply Hx.
Qed.

Lemma StronglySorted_weaken {A} (R R' : relation A) (l : list A) :
  StronglySorted R l → (∀ x y, x ∈ l → y ∈ l → R x y → R' x y) → StronglySorted R' l.
Proof.
  intros Hl. induction Hl as [|x l Hl IH Hall]; intros Himp; constructor.
  - apply IH. intros y z Hy Hz. apply Himp; by right.
  - rewrite Forall_forall in Hall |- *. intros y Hy. apply Himp; [left|by right|by apply Hall].
Qed.

Lemma Permutation_concat {A} (l1 l2 : list (list A)) : l1 ≡ₚ l2 → concat l1 ≡ₚ concat l2.
Proof.
  induction 1 as [|x l1 l2 _ IH|x y l|l1 l2 l3 _ IH1 _ IH2]; csimpl.
  - done.
  - by rewrite IH.
  - rewrite !app_assoc. f_equiv. apply Permutation_app_comm.
  - by rewrite IH1.
Qed.

Lemma elem_of_concat {A} (ls : list (list A)) (x : A) :
  x ∈ concat ls ↔ ∃ l, l ∈ ls ∧ x ∈ l.
Proof.
  induction ls as [|l ls IH]; simpl.
  - split; [by intros ?%elem_of_nil|]. by intros (? & ?%elem_of_nil & _).
  - rewrite elem_of_app, IH. split.
    + intros [?|(l' & ? & ?)]; [exists l; split; [left|done]|exists l'; split; [by right|done]].
    + intros (l' & [->|?]%elem_of_cons & ?); eauto.
Qed.

Section diff_sets.
Context `{SetOrder}.

Lemma diff_sets_unfold (a b : list row) :
  diff_sets a b = concat (merge_sort key_le (full_dict a b)).*2.
Proof. done. Qed.

Lemma foldl_dict_append_inv (sg : sign) (Q : Z * list event → Prop) (l : list row) (d : list (Z * list event)) :
  (∀ k v i, i ∈ l → row_key i = k → Q (k, v) → Q (k, v ++ [(sg, i)])) →
  (∀ i, i ∈ l → Q (row_key i, [(sg, i)])) →
  NoDup d.*1 → Forall Q d →
  let d' := foldl (λ d i, dict_append d (row_key i) (sg, i)) d l in
  NoDup d'.*1 ∧ Forall Q d' ∧ concat d'.*2 ≡ₚ concat d.*2 ++ ((sg ,.) <$> l).
Proof.
  revert d. induction l as [|i l IH]; intros d Happ Hnew Hnd HQ; simpl.
  - by rewrite app_nil_r.
  - destruct (IH (dict_append d (row_key i) (sg, i))) as (? & ? & Hperm).
    + intros k v j Hj. apply Happ. by right.
    + intros j Hj. apply Hnew. by right.
    + by apply dict_append_NoDup.
    + apply dict_append_Forall; [done| |apply Hnew; left].
      intros v. apply Happ; [left|done].
    + split_and!; [done..|]. rewrite Hperm, dict_append_concat.
      by rewrite <- app_assoc.
Qed.

Lemma plus_dict_inv (a b : list row) :
  NoDup (plus_dict a b).*1 ∧ Forall group_plus (plus_dict a b) ∧
  concat (plus_dict a b).*2 ≡ₚ (Plus ,.) <$> set_iter (list_difference a b).
Proof.
  apply (foldl_dict_append_inv Plus group_plus _ []); [| |constructor..].
  - intros k v i _ Hk Hv ev [Hev|Hev%list_elem_of_singleton]%elem_of_app; [by apply Hv|].
    by subst.
  - intros i _ ev ->%list_elem_of_singleton. done.
Qed.

Lemma full_dict_inv (a b : list row) :
  NoDup (full_dict a b).*1 ∧ Forall group_ok (full_dict a b) ∧
  concat (full_dict a b).*2
    ≡ₚ ((Plus ,.) <$> set_iter (list_difference a b)) ++ ((Minus ,.) <$> set_iter (list_difference b a)).
Proof.
  destruct (plus_dict_inv a b) as (Hnd & Hplus & Hperm).
  destruct (foldl_dict_append_inv Minus group_ok (set_iter (list_difference b a)) (plus_dict a b))
    as (? & ? & Hperm'); [| |done| |].
  - intros k v i _ Hk [Hkey Hs]. split; simpl in *.
    + intros ev [Hev|Hev%list_elem_of_singleton]%elem_of_app; [by apply Hkey|by subst].
    + apply StronglySorted_snoc; [done|]. intros. by right.
  - intros i _. split; simpl; [|repeat constructor].
    by intros ev ->%list_elem_of_singleton.
  - eapply Forall_impl; [done|]. apply group_plus_ok.
  - split_and!; [done..|]. by rewrite Hperm', Hperm.
Qed.

Lemma diff_sets_Permutation (a b : list row) :
  diff_sets a b
    ≡ₚ ((Plus ,.) <$> set_iter (list_difference a b)) ++ ((Minus ,.) <$> set_iter (list_difference b a)).
Proof.
  rewrite diff_sets_unfold. destruct (full_dict_inv a b) as (_ & _ & <-).
  apply Permutation_concat. by rewrite merge_sort_Permutation.
Qed.

Lemma concat_groups_sorted (s : list (Z * list event)) :
  StronglySorted key_le s → NoDup s.*1 → Forall group_ok s →
  StronglySorted grouped_before (concat s.*2).
Proof.
  induction 1 as [|[k v] s Hs IH Hall]; intros Hnd Hok; simpl; [constructor|].
  apply NoDup_cons in Hnd as [Hk Hnd]. apply Forall_cons in Hok as [[Hkey Hsign] Hok].
  simpl in *. apply StronglySorted_app. split_and!.
  - intros e1 e2 He1 He2. left. rewrite (Hkey _ He1).
    apply elem_of_concat in He2 as (v' & Hv' & He2).
    apply list_elem_of_fmap in Hv' as ([k' v''] & -> & Hkv). simpl in He2.
    rewrite Forall_forall in Hall, Hok.
    destruct (Hok _ Hkv) as [Hkey' _]. rewrite (Hkey' _ He2). simpl.
    specialize (Hall _ Hkv). unfold key_le in Hall. simpl in Hall.
    assert (k ≠ k'); [|lia]. intros ->. apply Hk.
    apply list_elem_of_fmap. by exists (k', v'').
  - eapply StronglySorted_weaken; [done|]. intros x y Hx Hy Hxy. right.
    by rewrite (Hkey _ Hx), (Hkey _ Hy).
  - by apply IH.
Qed.

Lemma diff_sets_sorted (a b : list row) : StronglySorted grouped_before (diff_sets a b).
Proof.
  rewrite diff_sets_unfold. destruct (full_dict_inv a b) as (Hnd & Hok & _).
  assert (Hperm : merge_sort key_le (full_dict a b) ≡ₚ full_dict a b)
    by apply merge_sort_Permutation.
  apply concat_groups_sorted.
  - apply StronglySorted_merge_sort.
    + intros x y z. unfold key_le. lia.
    + intros x y. unfold key_le. lia.
  - by rewrite Hperm.
  - by rewrite Hperm.
Qed.

Lemma diff_sets_NoDup (a b : list row) : NoDup (diff_sets a b).
Proof.
  rewrite diff_sets_Permutation. apply NoDup_app. split_and!.
  - apply NoDup_fmap; [by intros ?? [=]|]. apply set_iter_NoDup.
  - intros ev (i & -> & _)%list_elem_of_fmap (j & [=] & _)%list_elem_of_fmap.
  - apply NoDup_fmap; [by intros ?? [=]|]. apply set_iter_NoDup.
Qed.

Lemma elem_of_diff_sets (a b : list row) (sg : sign) (t : row) :
  (sg, t) ∈ diff_sets a b ↔
  match sg with Plus => t ∈ a ∧ t ∉ b | Minus => t ∈ b ∧ t ∉ a end.
Proof.
  rewrite diff_sets_Permutation, elem_of_app, !list_elem_of_fmap.
  destruct sg; split.
  - intros [(i & [= <-] & Hi)|(i & [=] & _)].
    by apply set_iter_elem, list_elem_of_difference in Hi.
  - intros Ht. left. exists t. split; [done|]. by apply set_iter_elem, list_elem_of_difference.
  - intros [(i & [=] & _)|(i & [= <-] & Hi)].
    by apply set_iter_elem, list_elem_of_difference in Hi.
  - intros Ht. right. exists t. split; [done|]. by apply set_iter_elem, list_elem_of_difference.
Qed.

(** C2. [diff_sets a b] yields [('+', t)] for every tuple of [a] that is not
    in [b] and [('-', t)] for every tuple of [b] that is not in [a], each
    once and nothing else; the events come by ascending key, so those of one
    key are contiguous, and under one key every [+] precedes every [-]. *)
Theorem diff_sets_grouped_by_key (a b : list row) :
  (∀ t, (Plus, t) ∈ diff_sets a b ↔ t ∈ a ∧ t ∉ b) ∧
  (∀ t, (Minus, t) ∈ diff_sets a b ↔ t ∈ b ∧ t ∉ a) ∧
  NoDup (diff_sets a b) ∧
  StronglySorted grouped_before (diff_sets a b).
Proof.
  split_and!.
  - intros t. apply (elem_of_diff_sets a b Plus).
  - intros t. apply (elem_of_diff_sets a b Minus).
  - apply diff_sets_NoDup.
  - apply diff_sets_sorted.
Qed.
End diff_sets.

(** ** More fuel changes no finished run *)

Lemma drain_refines (diff_iters1 diff_iters2 : list Generator) :
  Forall2 refines diff_iters1 diff_iters2 → refines (drain diff_iters1) (drain diff_iters2).
Proof.
  induction 1 as [|c1 c2 rest1 rest2 Hc _ IH]; intros st r Hr Hstop; [done|].
  simpl in Hr |- *. destruct (c1 st) as [st1 [res stp]] eqn:Hc1.
  destruct stp as [|e|].
  - rewrite (Hc st _ Hc1) by done.
    destruct (drain rest1 st1) as [st2 [evs stp2]] eqn:Hd.
    rewrite (IH st1 _ Hd); [done|]. by subst r.
  - by rewrite (Hc st _ Hc1).
  - by subst r.
Qed.

Lemma _diff_tables_refines (rec1 rec2 : TableSegment → TableSegment → Z → option Z → Generator)
    (table1 table2 : TableSegment) (level : Z) :
  (∀ t1 t2 lv mr, refines (rec1 t1 t2 lv mr) (rec2 t1 t2 lv mr)) →
  refines (_diff_tables rec1 table1 table2 level) (_diff_tables rec2 table1 table2 level).
Proof.
  intros Hrec st r Hr Hstop. unfold _diff_tables in *.
  destruct (end_key table2), (start_key table1); try done.
  destruct (count_and_checksum table1) as [count1 checksum1].
  destruct (count_and_checksum table2) as [count2 checksum2].
  destruct (pair_step_of count1 checksum1 count2 checksum2) as [[]|[]]; try done.
  by eapply Hrec.
Qed.

Lemma bisect_body_refines `{SetOrder}
    (rec1 rec2 : TableSegment → TableSegment → Z → option Z → Generator) (self : TableDiffer)
    (table1 table2 : TableSegment) (level : Z) (max_rows : option Z) :
  (∀ t1 t2 lv mr, refines (rec1 t1 t2 lv mr) (rec2 t1 t2 lv mr)) →
  refines (bisect_and_diff_body rec1 self table1 table2 level max_rows)
          (bisect_and_diff_body rec2 self table1 table2 level max_rows).
Proof.
  intros Hrec st r Hr Hstop. unfold bisect_and_diff_body in *.
  destruct (negb _); [done|]. destruct (bool_decide _); [done|].
  destruct (_ ≫= _) as [pairs|e]; [|done].
  eapply drain_refines; [|done..].
  apply Forall2_fmap, Forall_Forall2_diag, Forall_forall. intros t _.
  by apply _diff_tables_refines.
Qed.

Lemma bisect_fuel_S `{SetOrder} (fuel : nat) (self : TableDiffer)
    (table1 table2 : TableSegment) (level : Z) (max_rows : option Z) :
  refines (_bisect_and_diff_tables fuel self table1 table2 level max_rows)
          (_bisect_and_diff_tables (S fuel) self table1 table2 level max_rows).
Proof.
  revert table1 table2 level max_rows. induction fuel as [|n IH]; intros t1 t2 lv mr.
  - intros st r <-. done.
  - change (refines (bisect_and_diff_body (_bisect_and_diff_tables n self) self t1 t2 lv mr)
                    (bisect_and_diff_body (_bisect_and_diff_tables (S n) self) self t1 t2 lv mr)).
    by apply bisect_body_refines.
Qed.

(** A run that stopped within its fuel stops the same way with more. *)
Lemma bisect_fuel_mono `{SetOrder} (fuel fuel' : nat) (self : TableDiffer)
    (table1 table2 : TableSegment) (level : Z) (max_rows : option Z) :
  (fuel ≤ fuel')%nat →
  refines (_bisect_and_diff_tables fuel self table1 table2 level max_rows)
          (_bisect_and_diff_tables fuel' self table1 table2 level max_rows).
Proof.
  induction 1 as [|fuel' _ IH]; intros st r Hr Hstop; [done|].
  eapply bisect_fuel_S; [|done]. by apply IH.
Qed.

(** ** Generators and the statistics dictionary *)

Lemma bump_bump (d1 d2 : option Z) (stats : Stats) :
  bump d2 (bump d1 stats) = bump (bump_then d1 d2) stats.
Proof.
  destruct d1 as [n1|], d2 as [n2|]; simpl; try done.
  unfold add_table1_count. rewrite lookup_insert_eq, insert_insert_eq. simpl.
  f_equal. lia.
Qed.

Lemma drain_oblivious (diff_iters : list Generator) :
  Forall oblivious diff_iters → oblivious (drain diff_iters).
Proof.
  induction 1 as [|child rest (d1 & [res stp] & Hchild) _ (d2 & [evs stp2] & Hrest)].
  - by exists None, ([], Exhausted).
  - destruct stp as [|e|].
    + exists (bump_then d1 d2), (res ++ evs, stp2). intros st. simpl.
      by rewrite Hchild, Hrest, bump_bump.
    + exists d1, ([], Raised e). intros st. simpl. by rewrite Hchild.
    + exists d1, ([], Diverged). intros st. simpl. by rewrite Hchild.
Qed.

Lemma _diff_tables_oblivious (rec : TableSegment → TableSegment → Z → option Z → Generator)
    (table1 table2 : TableSegment) (level : Z) :
  (∀ t1 t2 lv mr, oblivious (rec t1 t2 lv mr)) →
  oblivious (_diff_tables rec table1 table2 level).
Proof.
  intros Hrec. unfold _diff_tables.
  destruct (end_key table2), (start_key table1);
    try by exists None, ([], Raised TypeError).
  destruct (count_and_checksum table1) as [count1 checksum1].
  destruct (count_and_checksum table2) as [count2 checksum2].
  destruct (pair_step_of count1 checksum1 count2 checksum2) as [[]|[]].
  - by exists None, ([], Exhausted).
  - by exists None, ([], Raised AssertionError).
  - destruct (Hrec table1 table2 level (Some (Z.max count1 count2))) as (d & out & Hd).
    case_bool_decide.
    + exists (bump_then (Some count1) d), out. intros st. by rewrite Hd, <- bump_bump.
    + exists d, out. intros st. by rewrite Hd.
  - case_bool_decide.
    + by exists (Some count1), ([], Exhausted).
    + by exists None, ([], Exhausted).
Qed.

Lemma bisect_oblivious `{SetOrder} (fuel : nat) (self : TableDiffer)
    (table1 table2 : TableSegment) (level : Z) (max_rows : option Z) :
  oblivious (_bisect_and_diff_tables fuel self table1 table2 level max_rows).
Proof.
  revert table1 table2 level max_rows. induction fuel as [|n IH]; intros t1 t2 lv mr.
  - by exists None, ([], Diverged).
  - cbn [_bisect_and_diff_tables]. unfold bisect_and_diff_body.
    destruct (negb _); [by exists None, ([], Raised AssertionError)|].
    destruct (bool_decide _); [by eexists None, (_, Exhausted)|].
    destruct (_ ≫= _) as [pairs|e]; [|by exists None, ([], Raised e)].
    destruct (drain_oblivious ((λ t, _diff_tables (_bisect_and_diff_tables n self) t.1 t.2 (lv + 1))
                                 <$> pairs)) as (d & out & Hd).
    { apply Forall_fmap, Forall_forall. intros t _. by apply _diff_tables_oblivious. }
    by exists d, out.
Qed.

(** ** Tables behind the segments *)

Lemma elem_of_select_rows (rows : list row) (lo hi : option Z) (t : row) :
  t ∈ select_rows rows lo hi ↔ in_key_range lo hi t ∧ t ∈ rows.
Proof. unfold select_rows. apply list_elem_of_filter. Qed.

Lemma select_rows_all (rows : list row) : select_rows rows None None = rows.
Proof.
  unfold select_rows. induction rows as [|r rows IH]; [done|].
  rewrite filter_cons_True by done. by rewrite IH.
Qed.

Lemma select_rows_keys_NoDup (rows : list row) (lo hi : option Z) :
  NoDup (row_key <$> rows) → NoDup (row_key <$> select_rows rows lo hi).
Proof.
  unfold select_rows. induction rows as [|r rows IH]; [done|].
  rewrite fmap_cons, NoDup_cons. intros [Hr Hnd]. rewrite filter_cons.
  destruct (decide (in_key_range lo hi r)); [|by apply IH].
  rewrite fmap_cons. apply NoDup_cons. split; [|by apply IH].
  intros (r' & Hk & Hr')%list_elem_of_fmap. apply Hr.
  apply list_elem_of_fmap. exists r'. split; [done|].
  by apply list_elem_of_filter in Hr' as [_ ?].
Qed.

(** Distinct integer keys: a key range holds no more rows than it has keys. *)
Lemma select_rows_length_le (rows : list row) (s e : Z) :
  NoDup (row_key <$> rows) → s ≤ e →
  Z.of_nat (length (select_rows rows (Some s) (Some e))) ≤ e - s.
Proof.
  intros Hnd Hse.
  assert (Hsub : row_key <$> select_rows rows (Some s) (Some e) ⊆+ seqZ s (e - s)).
  { apply NoDup_submseteq; [by apply select_rows_keys_NoDup|].
    intros k (r & -> & Hr)%list_elem_of_fmap.
    apply elem_of_select_rows in Hr as [[Hlo Hhi] _]. simpl in Hlo, Hhi.
    apply elem_of_seqZ. lia. }
  apply submseteq_length in Hsub. rewrite length_fmap, length_seqZ in Hsub. lia.
Qed.

Lemma checksum_of_None (hash : row → Z) (rows : list row) :
  checksum_of hash rows = None ↔ rows = [].
Proof. by destruct rows. Qed.

Lemma count_and_checksum_table (hash : row → Z) (rows : list row) (s e : Z) :
  count_and_checksum (table_range hash rows s e)
  = (Z.of_nat (length (select_rows rows (Some s) (Some e))),
     checksum_of hash (select_rows rows (Some s) (Some e))).
Proof. done. Qed.

Lemma get_values_table (hash : row → Z) (rows : list row) (s e : Z) :
  get_values (table_range hash rows s e) = select_rows rows (Some s) (Some e).
Proof. done. Qed.

Lemma foldr_min_spec (k0 : Z) (ks : list Z) :
  foldr Z.min k0 ks ∈ k0 :: ks ∧ ∀ k, k ∈ k0 :: ks → foldr Z.min k0 ks ≤ k.
Proof.
  induction ks as [|k1 ks [IHin IHle]]; simpl.
  - split; [left|]. intros k Hk%list_elem_of_singleton. lia.
  - split.
    + destruct (Z.min_spec k1 (foldr Z.min k0 ks)) as [[_ Heq]|[_ Heq]]; rewrite Heq; set_solver.
    + intros k Hk. assert (k = k1 ∨ k ∈ k0 :: ks) as [Hk1|Hk1] by set_solver; [lia|].
      specialize (IHle k Hk1). lia.
Qed.

Lemma foldr_max_spec (k0 : Z) (ks : list Z) :
  foldr Z.max k0 ks ∈ k0 :: ks ∧ ∀ k, k ∈ k0 :: ks → k ≤ foldr Z.max k0 ks.
Proof.
  induction ks as [|k1 ks [IHin IHle]]; simpl.
  - split; [left|]. intros k Hk%list_elem_of_singleton. lia.
  - split.
    + destruct (Z.max_spec k1 (foldr Z.max k0 ks)) as [[_ Heq]|[_ Heq]]; rewrite Heq; set_solver.
    + intros k Hk. assert (k = k1 ∨ k ∈ k0 :: ks) as [Hk1|Hk1] by set_solver; [lia|].
      specialize (IHle k Hk1). lia.
Qed.

Lemma sql_min_spec (ks : list Z) :
  ks ≠ [] → ∃ m, sql_min ks = Some m ∧ m ∈ ks ∧ ∀ k, k ∈ ks → m ≤ k.
Proof.
  destruct ks as [|k0 ks]; [done|]. intros _. simpl. eexists. split; [done|].
  apply foldr_min_spec.
Qed.

Lemma sql_max_spec (ks : list Z) :
  ks ≠ [] → ∃ m, sql_max ks = Some m ∧ m ∈ ks ∧ ∀ k, k ∈ ks → k ≤ m.
Proof.
  destruct ks as [|k0 ks]; [done|]. intros _. simpl. eexists. split; [done|].
  apply foldr_max_spec.
Qed.

(** ** The recursion on tables with distinct keys *)

Lemma zip_fmap_same {X Y1 Y2} (f : X → Y1) (g : X → Y2) (l : list X) :
  zip (f <$> l) (g <$> l) = (λ x, (f x, g x)) <$> l.
Proof. induction l as [|x l IH]; csimpl; [done|]. by f_equal. Qed.

Lemma last_cons_default {X} (x : X) (l : list X) : last (x :: l) = Some (default x (last l)).
Proof.
  revert x. induction l as [|y l IH]; intros x; [done|].
  rewrite last_cons_cons, !IH. done.
Qed.

(** Children over the neighbouring ranges of an ascending chain of positions,
    drained in order: if each child settles with what is owed for its range,
    the whole settles with what is owed from the first position to the last. *)
Lemma drain_chain (G : Z → Z → Generator) (P : Z → Z → list event → Prop) :
  (∀ p, P p p []) →
  (∀ p q r evs1 evs2, p ≤ q → q ≤ r → P p q evs1 → P q r evs2 → P p r (evs1 ++ evs2)) →
  ∀ (positions : list Z) (p : Z),
    StronglySorted Z.le (p :: positions) →
    (∀ a b, (a, b) ∈ zip_neighbours (p :: positions) → settles (G a b) (P a b)) →
    settles (drain ((λ ab, G ab.1 ab.2) <$> zip_neighbours (p :: positions)))
            (P p (default p (last positions))).
Proof.
  intros Hnil Hjoin positions. induction positions as [|q rest IH]; intros p Hs Hch st.
  - exists st, []. split; [done|]. apply Hnil.
  - rewrite zip_neighbours_cons, fmap_cons. cbn [drain fst snd].
    destruct (Hch p q ltac:(rewrite zip_neighbours_cons; left) st) as (st1 & evs1 & -> & HP1).
    apply StronglySorted_cons in Hs as [Hall Hs'].
    destruct (IH q Hs') with (stats := st1) as (st2 & evs2 & -> & HP2).
    { intros a b Hab. apply Hch. rewrite zip_neighbours_cons. by right. }
    exists st2, (evs1 ++ evs2). split; [done|].
    assert (Hlast : default p (last (q :: rest)) = default q (last rest)).
    { by rewrite last_cons_default. }
    rewrite Hlast. apply Hjoin with q; [| |done..].
    + by apply Forall_cons in Hall as [? _].
    + destruct (last rest) as [x|] eqn:Hx; simpl; [|lia].
      apply StronglySorted_cons in Hs' as [Hall' _].
      rewrite Forall_forall in Hall'. apply Hall'. by apply last_Some_elem_of.
Qed.

Section bisection.
Context `{SetOrder}.
Variables (hash : row → Z) (A B : list row) (self : TableDiffer).
Hypothesis legal : legal_config self.
Hypothesis keysA : NoDup (row_key <$> A).
Hypothesis keysB : NoDup (row_key <$> B).

Local Abbreviation owed := (owed_events hash A B).

Lemma leaf_events (s e : Z) :
  events_for A B s e
    (diff_sets (select_rows A (Some s) (Some e)) (select_rows B (Some s) (Some e))).
Proof.
  split; [apply diff_sets_NoDup|]. intros sg t.
  pose proof (elem_of_diff_sets (select_rows A (Some s) (Some e))
                (select_rows B (Some s) (Some e)) sg t) as Hd.
  destruct sg; rewrite !elem_of_select_rows in Hd; tauto.
Qed.

Lemma in_sync_events (s e : Z) :
  (∀ t, t ∈ select_rows A (Some s) (Some e) ↔ t ∈ select_rows B (Some s) (Some e)) →
  events_for A B s e [].
Proof.
  intros Hsync. split; [constructor|]. intros sg t. split; [by intros ?%elem_of_nil|].
  intros [Hr Hd]. specialize (Hsync t). rewrite !elem_of_select_rows in Hsync.
  destruct sg; tauto.
Qed.

Lemma events_for_join (p q r : Z) (evs1 evs2 : list event) :
  p ≤ q → q ≤ r →
  events_for A B p q evs1 → events_for A B q r evs2 → events_for A B p r (evs1 ++ evs2).
Proof.
  intros Hpq Hqr [Hnd1 H1] [Hnd2 H2]. split.
  - apply NoDup_app. split_and!; [done| |done].
    intros [sg t] Hin1 Hin2. apply H1 in Hin1 as [[_ Hhi] _]. apply H2 in Hin2 as [[Hlo _] _].
    simpl in *. lia.
  - intros sg t. rewrite elem_of_app, H1, H2. unfold in_key_range, lower_ok, upper_ok. split.
    + intros [[[??]?]|[[??]?]]; (split; [split; lia|done]).
    + intros [[??]?]. destruct (decide (row_key t < q)); [left|right]; (split; [split; lia|done]).
Qed.

(** One pair of segments, given that the recursion settles on narrower
    ranges. *)
Lemma pair_settles (n : nat) (a b level : Z) :
  a ≤ b → b - a < Z.of_nat n →
  (∀ max_rows,
     (∀ m, max_rows = Some m → bisection_threshold self ≤ m → m ≤ b - a) →
     settles (_bisect_and_diff_tables n self (table_range hash A a b) (table_range hash B a b)
                level max_rows) (owed a b)) →
  settles (_diff_tables (_bisect_and_diff_tables n self)
             (table_range hash A a b) (table_range hash B a b) level) (owed a b).
Proof.
  intros Hab Hn IH st. unfold _diff_tables.
  change (end_key (table_range hash B a b)) with (Some b).
  change (start_key (table_range hash A a b)) with (Some a). cbv iota.
  rewrite !count_and_checksum_table.
  set (rowsA := select_rows A (Some a) (Some b)).
  set (rowsB := select_rows B (Some a) (Some b)).
  unfold pair_step_of.
  destruct (decide (rowsA = [] ∧ rowsB = [])) as [[HA HB]|Hne].
  - rewrite HA, HB. simpl. exists st, []. split; [done|]. intros _.
    apply in_sync_events. fold rowsA rowsB. by rewrite HA, HB.
  - assert (bool_decide (Z.of_nat (length rowsA) = 0) && bool_decide (Z.of_nat (length rowsB) = 0)
            = false) as ->.
    { apply andb_false_iff. rewrite !bool_decide_eq_false.
      destruct rowsA, rowsB; simpl; try lia. naive_solver. }
    case_bool_decide as Hdiff.
    + apply IH. intros m [= <-] _.
      pose proof (select_rows_length_le A a b keysA Hab).
      pose proof (select_rows_length_le B a b keysB Hab). subst rowsA rowsB. lia.
    + eexists _, []. split; [done|]. intros Hfaith. apply in_sync_events, Hfaith.
      fold rowsA rowsB. by destruct (decide (checksum_of hash rowsA = checksum_of hash rowsB)).
Qed.

(** The checkpoints of a range at least as wide as the threshold: some exist,
    and all lie strictly inside the range. *)
Lemma checkpoints_inside (s e : Z) :
  bisection_threshold self ≤ e - s →
  ∃ cs, choose_checkpoints (table_range hash A s e) (bisection_factor self - 1) = Ok cs ∧
        cs ≠ [] ∧ ∀ c, c ∈ cs → s < c < e.
Proof using legal.
  intros Hw. destruct legal as [Hf Ht].
  set (step := (e - s + 1) `div` (bisection_factor self - 1 + 1)).
  assert (Hstep : 0 < step) by (apply Z.div_str_pos; lia).
  assert (Hnarrow : step < e - s) by (apply Z.div_lt_upper_bound; nia).
  exists (checkpoints_from s e step (bisection_factor self - 1)). split_and!.
  - apply split_space_pos_step; [lia|done].
  - intros Hnil. assert (Hin : s + 1 * step ∈ checkpoints_from s e step (bisection_factor self - 1)).
    { apply elem_of_checkpoints_from. split; [lia|]. exists 1. split; [lia|done]. }
    rewrite Hnil in Hin. by apply elem_of_nil in Hin.
  - intros c (Hlt & i & Hi & ->)%elem_of_checkpoints_from. split; [nia|done].
Qed.

(** One bisection step on a range at least as wide as the threshold: the
    children are the pairs of segments over the neighbouring positions. *)
Lemma bisect_children (rec : TableSegment → TableSegment → Z → option Z → Generator)
    (s e level : Z) (max_rows : option Z) :
  bisection_threshold self ≤ default (e - s) max_rows →
  bisection_threshold self ≤ e - s →
  ∃ cs, StronglySorted Z.le cs ∧ cs ≠ [] ∧ (∀ c, c ∈ cs → s < c < e) ∧
    ∀ stats,
      bisect_and_diff_body rec self (table_range hash A s e) (table_range hash B s e)
        level max_rows stats
      = drain ((λ ab, _diff_tables rec (table_range hash A ab.1 ab.2) (table_range hash B ab.1 ab.2)
                        (level + 1)) <$> zip_neighbours ([s] ++ cs ++ [e])) stats.
Proof using legal.
  intros Hm Hw. destruct (checkpoints_inside s e Hw) as (cs & Hcs & Hne & Hin).
  set (sorted := merge_sort Z.le cs).
  assert (Helem : ∀ c, c ∈ sorted ↔ c ∈ cs) by apply elem_of_merge_sort_le.
  assert (Hin' : ∀ c, c ∈ sorted → s ≤ c < e).
  { intros c Hc. apply Helem, Hin in Hc. lia. }
  exists sorted. split_and!.
  - apply merge_sort_le_sorted.
  - intros Hnil. destruct cs as [|c cs']; [done|].
    assert (Hc : c ∈ sorted) by (apply Helem; left).
    rewrite Hnil in Hc. by apply elem_of_nil in Hc.
  - intros c Hc. by apply Hin, Helem.
  - intros st. unfold bisect_and_diff_body.
    change (is_bounded (table_range hash A s e)) with true.
    change (is_bounded (table_range hash B s e)) with true.
    change (key_width (table_range hash A s e)) with (e - s). cbn [negb andb].
    rewrite bool_decide_eq_false_2 by lia. rewrite Hcs. cbn [mbind result_bind].
    rewrite (segment_by_checkpoints_tables _ s e cs); [|done..|].
    2: { eapply checkpoints_in_range_true; [done..|]. intros c Hc%Hin. lia. }
    cbn [mbind result_bind seg_checkpoints seg_tables]. fold sorted.
    rewrite (segment_by_checkpoints_tables _ s e sorted); [|done..|].
    2: { by eapply checkpoints_in_range_true. }
    cbn [mbind result_bind seg_checkpoints seg_tables].
    unfold sorted at 2 3. rewrite merge_sort_le_idemp. fold sorted.
    unfold safezip. rewrite bool_decide_eq_true_2 by by rewrite !length_fmap.
    rewrite zip_fmap_same, <- list_fmap_compose. done.
Qed.

Lemma bisect_settles (fuel : nat) (s e level : Z) (max_rows : option Z) :
  (0 < fuel)%nat → e - s < Z.of_nat fuel →
  (∀ m, max_rows = Some m → bisection_threshold self ≤ m → m ≤ e - s) →
  settles (_bisect_and_diff_tables fuel self (table_range hash A s e) (table_range hash B s e)
             level max_rows) (owed s e).
Proof using legal keysA keysB.
  pose proof legal as [Hf Ht].
  revert s e level max_rows. induction fuel as [|n IH]; intros s e level max_rows Hpos Hw Hm; [lia|].
  cbn [_bisect_and_diff_tables].
  destruct (decide (default (e - s) max_rows < bisection_threshold self)) as [Hleaf|Hbig].
  - intros st. unfold bisect_and_diff_body.
    change (is_bounded (table_range hash A s e)) with true.
    change (is_bounded (table_range hash B s e)) with true.
    change (key_width (table_range hash A s e)) with (e - s). cbn [negb andb].
    rewrite bool_decide_eq_true_2 by done. rewrite !get_values_table.
    eexists _, _. split; [done|]. intros _. apply leaf_events.
  - assert (Hwide : bisection_threshold self ≤ e - s).
    { destruct max_rows as [m|]; simpl in Hbig; [|lia]. specialize (Hm m eq_refl). lia. }
    destruct (bisect_children (_bisect_and_diff_tables n self) s e level max_rows)
      as (cs & Hsorted & Hne & Hin & Hstep); [lia|done|].
    intros st. rewrite Hstep. revert st. change (settles
      (drain ((λ ab, _diff_tables (_bisect_and_diff_tables n self) (table_range hash A ab.1 ab.2)
                       (table_range hash B ab.1 ab.2) (level + 1))
                <$> zip_neighbours ([s] ++ cs ++ [e]))) (owed s e)).
    assert (Hchain : StronglySorted Z.le ([s] ++ cs ++ [e])).
    { apply positions_sorted; [done| |lia]. intros c Hc%Hin. lia. }
    pose proof (drain_chain
      (λ a b, _diff_tables (_bisect_and_diff_tables n self) (table_range hash A a b)
                (table_range hash B a b) (level + 1)) owed) as Hdrain.
    specialize (Hdrain (λ p _, in_sync_events p p (λ t, ltac:(
      rewrite !elem_of_select_rows; unfold in_key_range, lower_ok, upper_ok; split; intros [[??]?]; lia)))).
    assert (Hjoin : ∀ p q r evs1 evs2, p ≤ q → q ≤ r →
              owed p q evs1 → owed q r evs2 → owed p r (evs1 ++ evs2)).
    { intros p q r evs1 evs2 ?? H1 H2 Hfaith. apply events_for_join with q; auto. }
    specialize (Hdrain Hjoin (cs ++ [e]) s Hchain).
    rewrite last_snoc in Hdrain. apply Hdrain. clear Hdrain.
    intros a b Hab.
    pose proof (neighbours_of_sorted _ _ _ Hchain Hab) as Hle.
    assert (Hshort : b - a < e - s).
    { apply elem_of_zip_neighbours in Hab as (l1 & l2 & Heq).
      destruct l1 as [|x l1]; simpl in Heq.
      - injection Heq as Hsa Heq. destruct cs as [|c cs']; [done|].
        injection Heq as Hcb _. specialize (Hin c ltac:(left)). lia.
      - injection Heq as _ Heq.
        assert (Ha : a ∈ cs ++ [e]) by (rewrite Heq; set_solver).
        assert (Hb : b ∈ cs ++ [e]) by (rewrite Heq; set_solver).
        destruct cs as [|c cs']; [done|]. specialize (Hin c ltac:(left)) as Hc.
        assert (s < a).
        { apply elem_of_app in Ha as [Ha%Hin|Ha%list_elem_of_singleton]; lia. }
        assert (b ≤ e).
        { apply elem_of_app in Hb as [Hb%Hin|Hb%list_elem_of_singleton]; lia. }
        lia. }
    apply pair_settles with (n := n); [done|lia|].
    intros max_rows' Hm'. apply IH; [lia|lia|done].
Qed.

(** One list of events serves every run with enough fuel, whatever the
    dictionary holds. *)
Lemma bisect_settles_uniformly (fuel0 : nat) (s e level : Z) :
  (0 < fuel0)%nat → e - s < Z.of_nat fuel0 →
  ∃ evs, owed s e evs ∧
    ∀ fuel stats, (fuel0 ≤ fuel)%nat →
      ∃ stats',
        _bisect_and_diff_tables fuel self (table_range hash A s e) (table_range hash B s e)
          level None stats = (stats', (evs, Exhausted)).
Proof using legal keysA keysB.
  intros Hpos Hw.
  destruct (bisect_oblivious fuel0 self (table_range hash A s e) (table_range hash B s e) level None)
    as (d & out & Hd).
  destruct (bisect_settles fuel0 s e level None Hpos Hw) with (stats := (∅ : Stats))
    as (st' & evs & Heq & Howed); [done|].
  rewrite Hd in Heq. injection Heq as _ ->.
  exists evs. split; [done|]. intros fuel stats Hfuel. exists (bump d stats).
  by apply (bisect_fuel_mono fuel0 fuel _ _ _ _ _ Hfuel stats _ (Hd stats)).
Qed.

End bisection.

(** C8 (as amended). On tables whose key column holds distinct integers, for
    a legal configuration and bounded segments of the two tables over one
    range [[s, e)]: the bound [max(count1, count2)] that [_diff_tables] passes
    down a range [[a, b)] is at least the number of rows either side has
    there and at most the width [b - a]; and with fuel beyond the width of the
    range, the recursion of [_bisect_and_diff_tables] and [_diff_tables] runs
    to its end without an exception, yielding the same events whatever the
    fuel. *)
Theorem bisection_terminates_on_distinct_keys `{SetOrder}
    (hash : row → Z) (A B : list row) (self : TableDiffer) (s e level : Z) :
  legal_config self → NoDup (row_key <$> A) → NoDup (row_key <$> B) →
  (∀ a b, a ≤ b →
     let max_rows := Z.max (count_and_checksum (table_range hash A a b)).1
                           (count_and_checksum (table_range hash B a b)).1 in
     Z.of_nat (length (get_values (table_range hash A a b))) ≤ max_rows ∧
     Z.of_nat (length (get_values (table_range hash B a b))) ≤ max_rows ∧
     max_rows ≤ b - a) ∧
  ∃ fuel0 evs, ∀ fuel stats, (fuel0 ≤ fuel)%nat →
    ∃ stats',
      _bisect_and_diff_tables fuel self (table_range hash A s e) (table_range hash B s e)
        level None stats = (stats', (evs, Exhausted)).
Proof.
  intros Hlegal HA HB. split.
  - intros a b Hab. rewrite !count_and_checksum_table, !get_values_table. simpl.
    pose proof (select_rows_length_le A a b HA Hab).
    pose proof (select_rows_length_le B a b HB Hab). lia.
  - exists (S (Z.to_nat (e - s))).
    destruct (bisect_settles_uniformly hash A B self Hlegal HA HB (S (Z.to_nat (e - s))) s e level)
      as (evs & _ & Hrun); [lia|lia|]. eauto.
Qed.

(** C1 (as amended). For non-empty tables whose key column holds distinct
    integers and whose checksums tell apart the row sets they are compared
    on, under a legal configuration: [diff_tables] returns a generator, and
    every run of it with enough fuel ends normally having yielded the same
    events: exactly one [('+', r)] for each row [r] of the first table that
    the second lacks, exactly one [('-', r)] for each row of the second that
    the first lacks, and nothing else, so as many events as the symmetric
    difference has rows. *)
Theorem diff_tables_emits_symmetric_difference `{SetOrder}
    (hash : row → Z) (A B : list row) (self : TableDiffer) :
  legal_config self → A ≠ [] → B ≠ [] →
  NoDup (row_key <$> A) → NoDup (row_key <$> B) →
  checksums_faithful hash A B →
  ∃ g fuel0 evs,
    diff_tables self (table_segment hash A) (table_segment hash B) = Ok g ∧
    (∀ fuel stats, (fuel0 ≤ fuel)%nat → ∃ stats', g fuel stats = (stats', (evs, Exhausted))) ∧
    NoDup evs ∧
    (∀ r, (Plus, r) ∈ evs ↔ r ∈ A ∧ r ∉ B) ∧
    (∀ r, (Minus, r) ∈ evs ↔ r ∈ B ∧ r ∉ A) ∧
    length evs = (length (list_difference A B) + length (list_difference B A))%nat.
Proof.
  intros Hlegal HAne HBne HA HB Hfaith.
  destruct (sql_min_spec (row_key <$> A)) as (min1 & Hmin1 & _ & Hmin1le); [by destruct A|].
  destruct (sql_max_spec (row_key <$> A)) as (max1 & Hmax1 & _ & Hmax1le); [by destruct A|].
  destruct (sql_min_spec (row_key <$> B)) as (min2 & Hmin2 & _ & Hmin2le); [by destruct B|].
  destruct (sql_max_spec (row_key <$> B)) as (max2 & Hmax2 & _ & Hmax2le); [by destruct B|].
  set (start := Z.min min1 min2). set (end_ := Z.max max1 max2 + 1).
  destruct (bisect_settles_uniformly hash A B self Hlegal HA HB (S (Z.to_nat (end_ - start)))
              start end_ 0) as (evs & Howed & Hrun); [lia|lia|].
  exists (λ fuel, _bisect_and_diff_tables fuel self
                    (table_range hash A start end_) (table_range hash B start end_) 0 None),
         (S (Z.to_nat (end_ - start))), evs.
  split.
  - unfold diff_tables. destruct Hlegal as [Hf Ht].
    rewrite !bool_decide_eq_false_2 by lia.
    rewrite (query_key_range_Ok (table_segment hash A) min1 max1).
    2: { simpl. by rewrite select_rows_all, Hmin1, Hmax1. }
    rewrite (query_key_range_Ok (table_segment hash B) min2 max2).
    2: { simpl. by rewrite select_rows_all, Hmin2, Hmax2. }
    done.
  - destruct (Howed Hfaith) as [Hnd Hev].
    assert (HinA : ∀ r, r ∈ A → in_key_range (Some start) (Some end_) r).
    { intros r Hr. assert (Hk : row_key r ∈ row_key <$> A) by (apply list_elem_of_fmap; eauto).
      specialize (Hmin1le _ Hk). specialize (Hmax1le _ Hk).
      unfold in_key_range, lower_ok, upper_ok. lia. }
    assert (HinB : ∀ r, r ∈ B → in_key_range (Some start) (Some end_) r).
    { intros r Hr. assert (Hk : row_key r ∈ row_key <$> B) by (apply list_elem_of_fmap; eauto).
      specialize (Hmin2le _ Hk). specialize (Hmax2le _ Hk).
      unfold in_key_range, lower_ok, upper_ok. lia. }
    assert (Hplus : ∀ r, (Plus, r) ∈ evs ↔ r ∈ A ∧ r ∉ B).
    { intros r. rewrite (Hev Plus r). naive_solver. }
    assert (Hminus : ∀ r, (Minus, r) ∈ evs ↔ r ∈ B ∧ r ∉ A).
    { intros r. rewrite (Hev Minus r). naive_solver. }
    split_and!; [done..|].
    assert (Hperm : evs ≡ₚ ((Plus ,.) <$> list_difference A B) ++ ((Minus ,.) <$> list_difference B A)).
    { apply NoDup_Permutation; [done| |].
      - apply NoDup_app. split_and!.
        + apply NoDup_fmap; [by intros ?? [=]|].
          apply NoDup_list_difference. by eapply NoDup_fmap_1.
        + intros ev (i & -> & _)%list_elem_of_fmap (j & [=] & _)%list_elem_of_fmap.
        + apply NoDup_fmap; [by intros ?? [=]|].
          apply NoDup_list_difference. by eapply NoDup_fmap_1.
      - intros [sg r]. rewrite elem_of_app, !list_elem_of_fmap. destruct sg.
        + rewrite Hplus, <- list_elem_of_difference. split; [eauto|].
          intros [(i & [= <-] & ?)|(i & [=] & _)]. done.
        + rewrite Hminus, <- list_elem_of_difference. split; [eauto|].
          intros [(i & [=] & _)|(i & [= <-] & ?)]. done. }
    by rewrite Hperm, length_app, !length_fmap.
Qed.

(** ** Checking a hash on given tables *)

Lemma filter_in_sublists {X} (P : X → Prop) `{∀ x, Decision (P x)} (l : list X) :
  filter P l ∈ sublists l.
Proof.
  induction l as [|x l IH]; simpl; [left|]. rewrite filter_cons.
  apply elem_of_app. destruct (decide (P x)); [left|by right].
  apply list_elem_of_fmap. eauto.
Qed.

Lemma no_collision_faithful (hash : row → Z) (A B : list row) :
  no_collision hash A B → checksums_faithful hash A B.
Proof.
  intros Hnc s e Heq t. unfold no_collision in Hnc. rewrite Forall_forall in Hnc.
  specialize (Hnc (select_rows A (Some s) (Some e)) (filter_in_sublists _ _)).
  rewrite Forall_forall in Hnc.
  destruct (Hnc (select_rows B (Some s) (Some e)) (filter_in_sublists _ _) Heq) as [HAB HBA].
  rewrite Forall_forall in HAB, HBA. split; auto.
Qed.

(** ** The theorems at work on the example tables *)

Lemma legal_2_3 : legal_config (differ 2 3).
Proof. unfold legal_config. simpl. lia. Defined.

Lemma left_table_keys : NoDup (row_key <$> left_table).
Proof. apply (bool_decide_unpack _). vm_compute. exact I. Defined.

Lemma right_table_keys : NoDup (row_key <$> right_table).
Proof. apply (bool_decide_unpack _). vm_compute. exact I. Defined.

Lemma example_hash_faithful : checksums_faithful example_hash left_table right_table.
Proof. apply no_collision_faithful. apply (bool_decide_unpack _). vm_compute. exact I. Defined.

Lemma diff_tables_pair_decision_witness :
  is_Some (start_key (table_range example_hash sparse_left 1 3)) ∧
  is_Some (end_key (table_range example_hash sparse_right 1 3)) ∧
  count_and_checksum (table_range example_hash sparse_left 1 3) = (0, None) ∧
  count_and_checksum (table_range example_hash sparse_right 1 3) = (1, Some 1000222) ∧
  _diff_tables (_bisect_and_diff_tables 3 (differ 2 3))
    (table_range example_hash sparse_left 1 3) (table_range example_hash sparse_right 1 3) 1 ∅
  = _bisect_and_diff_tables 3 (differ 2 3)
      (table_range example_hash sparse_left 1 3) (table_range example_hash sparse_right 1 3) 1
      (Some (Z.max 0 1)) (add_table1_count 0 ∅).
Proof.
  split; [by eexists|]. split; [by eexists|].
  split; [reflexivity|]. split; [reflexivity|].
  destruct (diff_tables_pair_decision (differ 2 3) 3
              (table_range example_hash sparse_left 1 3) (table_range example_hash sparse_right 1 3)
              1 ∅ 0 1 None (Some 1000222) (mk_is_Some _ _ eq_refl) (mk_is_Some _ _ eq_refl)
              eq_refl eq_refl) as [_ Hcmp].
  destruct Hcmp as [Hdiffer _]; [intros [_ ?]; discriminate|].
  apply Hdiffer. discriminate.
Defined.

(** C5, as the spec words it, fails when only one side is empty: over the
    keys [[1, 3)] the left table has no row and a null checksum, the right one
    has a row; the early return is not taken, the null checksum is compared
    with the other one and found different, and the pair is diffed. *)
Lemma null_checksum_is_compared :
  count_and_checksum (table_range example_hash sparse_left 1 3) = (0, None) ∧
  count_and_checksum (table_range example_hash sparse_right 1 3) = (1, Some 1000222) ∧
  pair_step_of 0 None 1 (Some 1000222) = Compared true ∧
  (_diff_tables (_bisect_and_diff_tables 1 (differ 2 3))
     (table_range example_hash sparse_left 1 3) (table_range example_hash sparse_right 1 3) 1 ∅).2
  = ([(Minus, (1, [VInt 1]))], Exhausted).
Proof. repeat split; vm_compute; reflexivity. Qed.

Lemma null_checksum_short_circuit_witness :
  is_Some (start_key (table_range example_hash sparse_left 1 3)) ∧
  is_Some (end_key (table_range example_hash sparse_right 1 3)) ∧
  count_and_checksum (table_range example_hash sparse_left 1 3) = (0, None) ∧
  count_and_checksum (table_range example_hash sparse_right 1 3) = (1, Some 1000222) ∧
  ¬ (0 = 0 ∧ 1 = 0) ∧
  pair_step_of 0 None 1 (Some 1000222) = Compared (bool_decide (None ≠ Some 1000222)).
Proof.
  split; [by eexists|]. split; [by eexists|].
  split; [reflexivity|]. split; [reflexivity|].
  assert (Hn : ¬ (0 = 0 ∧ 1 = 0)) by (intros [_ ?]; discriminate).
  split; [exact Hn|].
  destruct (null_checksum_short_circuit (differ 2 3) 1
              (table_range example_hash sparse_left 1 3) (table_range example_hash sparse_right 1 3)
              1 ∅ 0 1 None (Some 1000222) (mk_is_Some _ _ eq_refl) (mk_is_Some _ _ eq_refl)
              eq_refl eq_refl) as [_ Hcmp].
  destruct (Hcmp Hn) as [Hstep _]. exact Hstep.
Defined.

Lemma diff_tables_bound_discovery_witness :
  legal_config (differ 2 3) ∧
  query_min_max (database (table_segment example_hash left_table))
    (_make_select (table_segment example_hash left_table)) = (Some 1, Some 8) ∧
  query_min_max (database (table_segment example_hash right_table))
    (_make_select (table_segment example_hash right_table)) = (Some 1, Some 8) ∧
  diff_tables (differ 2 3) (table_segment example_hash left_table)
    (table_segment example_hash right_table)
  = Ok (λ fuel, _bisect_and_diff_tables fuel (differ 2 3)
                  (new (table_segment example_hash left_table) (Some 1) (Some 9))
                  (new (table_segment example_hash right_table) (Some 1) (Some 9)) 0 None).
Proof.
  split; [exact legal_2_3|]. split; [reflexivity|]. split; [reflexivity|].
  destruct (diff_tables_bound_discovery (differ 2 3) (table_segment example_hash left_table)
              (table_segment example_hash right_table) legal_2_3) as [Hok _].
  exact (Hok 1 8 1 8 eq_refl eq_refl).
Defined.

Lemma bisection_terminates_on_distinct_keys_witness :
  legal_config (differ 2 3) ∧
  NoDup (row_key <$> left_table) ∧ NoDup (row_key <$> right_table) ∧
  ∃ fuel0 evs, ∀ fuel stats, (fuel0 ≤ fuel)%nat →
    ∃ stats',
      _bisect_and_diff_tables fuel (differ 2 3) (table_range example_hash left_table 1 9)
        (table_range example_hash right_table 1 9) 0 None stats = (stats', (evs, Exhausted)).
Proof.
  split; [exact legal_2_3|]. split; [exact left_table_keys|]. split; [exact right_table_keys|].
  destruct (bisection_terminates_on_distinct_keys example_hash left_table right_table (differ 2 3)
              1 9 0 legal_2_3 left_table_keys right_table_keys) as [_ Hterm].
  exact Hterm.
Defined.

Lemma diff_tables_emits_symmetric_difference_witness :
  legal_config (differ 2 3) ∧ left_table ≠ [] ∧ right_table ≠ [] ∧
  NoDup (row_key <$> left_table) ∧ NoDup (row_key <$> right_table) ∧
  checksums_faithful example_hash left_table right_table ∧
  ∃ g fuel0 evs,
    diff_tables (differ 2 3) (table_segment example_hash left_table)
      (table_segment example_hash right_table) = Ok g ∧
    (∀ fuel stats, (fuel0 ≤ fuel)%nat → ∃ stats', g fuel stats = (stats', (evs, Exhausted))) ∧
    NoDup evs ∧
    (∀ r, (Plus, r) ∈ evs ↔ r ∈ left_table ∧ r ∉ right_table) ∧
    (∀ r, (Minus, r) ∈ evs ↔ r ∈ right_table ∧ r ∉ left_table) ∧
    length evs = (length (list_difference left_table right_table)
                  + length (list_difference right_table left_table))%nat.
Proof.
  split; [exact legal_2_3|]. split; [discriminate|]. split; [discriminate|].
  split; [exact left_table_keys|]. split; [exact right_table_keys|].
  split; [exact example_hash_faithful|].
  exact (diff_tables_emits_symmetric_difference example_hash left_table right_table (differ 2 3)
           legal_2_3 ltac:(discriminate) ltac:(discriminate) left_table_keys right_table_keys
           example_hash_faithful).
Defined.

(** What the generator yields on the example tables. *)
Example diff_tables_example :
  ∃ g, diff_tables (differ 2 3) (table_segment example_hash left_table)
         (table_segment example_hash right_table) = Ok g ∧
       (g 4%nat ∅).2
       = ([(Plus, (2, [VStr "b"])); (Plus, (3, [VStr "c"])); (Minus, (3, [VStr "C"]));
           (Minus, (5, [VStr "e"]))], Exhausted).
Proof. eexists. split; [reflexivity|]. vm_compute. reflexivity. Qed.

(** ** Tables with a repeated key *)

(** C1, as the spec words it, fails on two non-empty tables that repeat a
    key: with factor 4 and threshold 5, five rows under the key [1] keep the
    row count at the threshold while the key range shrinks to [[1, 2)], where
    [split_space] computes a zero step and [range] raises. The generator
    yields no event, whatever the fuel, although the row [(1, 5)] is in the
    first table only. *)
Lemma diff_tables_raises_on_repeated_key :
  legal_config (differ 4 5) ∧ repeated_left ≠ [] ∧ repeated_right ≠ [] ∧
  ((1, [VInt 5]) ∈ repeated_left ∧ (1, [VInt 5]) ∉ repeated_right) ∧
  ∃ g, diff_tables (differ 4 5) (table_segment example_hash repeated_left)
         (table_segment example_hash repeated_right) = Ok g ∧
       ∀ fuel, (g fuel ∅).2.1 = [] ∧
               ((4 ≤ fuel)%nat →
                (g fuel ∅).2.2 = Raised (ValueError "range() arg 3 must not be zero")).
Proof.
  split; [unfold legal_config; simpl; lia|]. split; [discriminate|]. split; [discriminate|].
  split.
  { split; apply (bool_decide_unpack _); vm_compute; exact I. }
  eexists. split; [reflexivity|]. intros fuel. cbv beta.
  destruct (decide (4 ≤ fuel)%nat) as [Hfuel|Hfuel].
  - set (t1 := new (table_segment example_hash repeated_left) _ _).
    set (t2 := new (table_segment example_hash repeated_right) _ _).
    destruct (_bisect_and_diff_tables 4 (differ 4 5) t1 t2 0 None ∅) as [st out] eqn:H4.
    assert (Hout : out = ([], Raised (ValueError "range() arg 3 must not be zero"))).
    { vm_compute in H4. by injection H4 as _ <-. }
    rewrite (bisect_fuel_mono 4 fuel _ _ _ _ _ Hfuel ∅ _ H4); rewrite Hout; done.
  - do 4 (destruct fuel as [|fuel]; [vm_compute; split; [reflexivity|lia]|]). lia.
Qed.

Lemma drain_diverges (child : Generator) (rest : list Generator) (stats : Stats) :
  (child stats).2 = ([], Diverged) → (drain (child :: rest) stats).2 = ([], Diverged).
Proof. simpl. destruct (child stats) as [st [res stp]]. simpl. by intros [= -> ->]. Qed.

Section tripled.
Variable rec : TableSegment → TableSegment → Z → option Z → Generator.
Variables (level : Z) (stats : Stats).

Lemma tripled_pair_1_2 :
  _diff_tables rec (table_range example_hash tripled_left 1 2)
    (table_range example_hash tripled_right 1 2) level stats
  = rec (table_range example_hash tripled_left 1 2) (table_range example_hash tripled_right 1 2)
      level (Some 3) (if bool_decide (level = 1) then add_table1_count 3 stats else stats).
Proof. reflexivity. Qed.

Lemma tripled_pair_1_3 :
  _diff_tables rec (table_range example_hash tripled_left 1 3)
    (table_range example_hash tripled_right 1 3) level stats
  = rec (table_range example_hash tripled_left 1 3) (table_range example_hash tripled_right 1 3)
      level (Some 3) (if bool_decide (level = 1) then add_table1_count 3 stats else stats).
Proof. reflexivity. Qed.

(** No checkpoint fits into [[1, 2)]: the only child is the range itself. *)
Lemma tripled_body_1_2 :
  bisect_and_diff_body rec (differ 2 3) (table_range example_hash tripled_left 1 2)
    (table_range example_hash tripled_right 1 2) level (Some 3) stats
  = drain [_diff_tables rec (table_range example_hash tripled_left 1 2)
             (table_range example_hash tripled_right 1 2) (level + 1)] stats.
Proof. reflexivity. Qed.

Lemma tripled_body_1_3 :
  bisect_and_diff_body rec (differ 2 3) (table_range example_hash tripled_left 1 3)
    (table_range example_hash tripled_right 1 3) level (Some 3) stats
  = drain [_diff_tables rec (table_range example_hash tripled_left 1 2)
             (table_range example_hash tripled_right 1 2) (level + 1);
           _diff_tables rec (table_range example_hash tripled_left 2 3)
             (table_range example_hash tripled_right 2 3) (level + 1)] stats.
Proof. reflexivity. Qed.

Lemma tripled_body_1_5 :
  bisect_and_diff_body rec (differ 2 3) (table_range example_hash tripled_left 1 5)
    (table_range example_hash tripled_right 1 5) level None stats
  = drain [_diff_tables rec (table_range example_hash tripled_left 1 3)
             (table_range example_hash tripled_right 1 3) (level + 1);
           _diff_tables rec (table_range example_hash tripled_left 3 5)
             (table_range example_hash tripled_right 3 5) (level + 1)] stats.
Proof. reflexivity. Qed.
End tripled.

Lemma tripled_loop (fuel : nat) (level : Z) (stats : Stats) :
  (_bisect_and_diff_tables fuel (differ 2 3) (table_range example_hash tripled_left 1 2)
     (table_range example_hash tripled_right 1 2) level (Some 3) stats).2 = ([], Diverged).
Proof.
  revert level stats. induction fuel as [|n IH]; intros level stats; [done|].
  cbn [_bisect_and_diff_tables]. rewrite tripled_body_1_2. apply drain_diverges.
  rewrite tripled_pair_1_2. apply IH.
Qed.

(** C8, as the spec words it, fails on bounded segments of two tables with
    integral keys when a key is repeated: with factor 2 and threshold 3,
    three rows under the key [1] lead the recursion to the range [[1, 2)],
    which has no checkpoint, so its only child is the same range with the same
    bound [max_rows = 3]. No amount of fuel brings the run to an end. *)
Lemma bisection_diverges_on_repeated_key :
  legal_config (differ 2 3) ∧
  ∀ fuel level stats,
    (_bisect_and_diff_tables fuel (differ 2 3) (table_range example_hash tripled_left 1 5)
       (table_range example_hash tripled_right 1 5) level None stats).2 = ([], Diverged).
Proof.
  split; [exact legal_2_3|]. intros fuel level stats.
  destruct fuel as [|fuel]; [done|].
  cbn [_bisect_and_diff_tables]. rewrite tripled_body_1_5. apply drain_diverges.
  rewrite tripled_pair_1_3.
  destruct fuel as [|fuel]; [done|].
  cbn [_bisect_and_diff_tables]. rewrite tripled_body_1_3. apply drain_diverges.
  rewrite tripled_pair_1_2. apply tripled_loop.
Qed.

(** ** The statistics dictionary *)

(** The dictionary is never reset. A generator returned by [diff_tables]
    leaves every key but ["table1_count"] as it found it, and what it adds to
    ["table1_count"] does not depend on what the dictionary held: run again on
    the dictionary the first run left, it yields the same events and adds the
    same amount on top. *)
Theorem stats_accumulate_across_runs `{SetOrder} (self : TableDiffer)
    (table1 table2 : TableSegment) (g : nat → Generator) (fuel : nat) :
  diff_tables self table1 table2 = Ok g →
  ∃ d out,
    (∀ stats, g fuel stats = (bump d stats, out)) ∧
    (∀ stats k, k ≠ "table1_count" → (g fuel stats).1 !! k = stats !! k) ∧
    (∀ stats n, d = Some n →
       (g fuel stats).1 !! "table1_count" = Some (default 0 (stats !! "table1_count") + n) ∧
       (g fuel (g fuel stats).1).1 !! "table1_count"
       = Some (default 0 (stats !! "table1_count") + n + n)).
Proof.
  intros Hg. unfold diff_tables in Hg.
  repeat (destruct (bool_decide _); [done|]).
  destruct (query_key_range table1) as [r1|]; [|done].
  destruct (query_key_range table2) as [r2|]; [|done].
  injection Hg as <-.
  destruct (bisect_oblivious fuel self (new table1 (Some (r1.1 `min` r2.1)) (Some (r1.2 `max` r2.2 + 1)))
              (new table2 (Some (r1.1 `min` r2.1)) (Some (r1.2 `max` r2.2 + 1))) 0 None)
    as (d & out & Hd).
  exists d, out. split_and!.
  - done.
  - intros st k Hk. rewrite Hd. simpl. destruct d as [n|]; [|done].
    simpl. unfold add_table1_count. by rewrite lookup_insert_ne.
  - intros st n ->. rewrite !Hd. simpl. unfold add_table1_count.
    rewrite !lookup_insert_eq. done.
Qed.

Lemma stats_accumulate_across_runs_witness :
  ∃ g, diff_tables (differ 2 3) (table_segment example_hash left_table)
         (table_segment example_hash right_table) = Ok g ∧
       (g 4%nat ∅).1 !! "table1_count" = Some 4 ∧
       (g 4%nat (g 4%nat ∅).1).1 !! "table1_count" = Some 8.
Proof.
  eexists. split; [reflexivity|].
  destruct (stats_accumulate_across_runs (differ 2 3) (table_segment example_hash left_table)
              (table_segment example_hash right_table) _ 4 eq_refl) as (d & out & Hrun & _ & Hadd).
  assert (Hd : d = Some 4).
  { specialize (Hrun ∅). vm_compute in Hrun. destruct d as [n|]; vm_compute in Hrun; [|discriminate].
    injection Hrun as Hn _. destruct n; try discriminate; by injection Hn as <-. }
  destruct (Hadd ∅ 4 Hd) as [H1 H2]. split; [exact H1|exact H2].
Defined.

(** * Further properties of the module *)

(** ** [safezip] *)

(** X2. [safezip] returns exactly when its two lists have one length, and
    then no element of either list is lost: the pairs project back to the
    two lists. On lists of different lengths it raises [AssertionError]. *)
Theorem safezip_loses_nothing {X Y} (l1 : list X) (l2 : list Y) :
  (length l1 = length l2 →
     ∃ pairs, safezip l1 l2 = Ok pairs ∧ pairs.*1 = l1 ∧ pairs.*2 = l2) ∧
  (length l1 ≠ length l2 → safezip l1 l2 = Raise AssertionError) ∧
  (∀ pairs, safezip l1 l2 = Ok pairs → length l1 = length l2 ∧ length pairs = length l1).
Proof.
  unfold safezip. split_and!.
  - intros Hlen. rewrite bool_decide_eq_true_2 by done. eexists. split; [done|].
    split; [apply fst_zip|apply snd_zip]; lia.
  - intros Hlen. by rewrite bool_decide_eq_false_2.
  - intros pairs. case_bool_decide as Hlen; [|done]. intros [= <-].
    split; [done|]. rewrite length_zip_with. lia.
Qed.

(** ** [split_space]: errors and shape *)

(** X3. [split_space] raises in two cases only: [ZeroDivisionError] when
    [count = -1], and [ValueError] from [range] when the step
    [(size + 1) // (count + 1)] is zero. *)
Theorem split_space_errors (start end_ count : Z) (e : exn) :
  split_space start end_ count = Raise e ↔
  (count = -1 ∧ e = ZeroDivisionError) ∨
  (count ≠ -1 ∧ (end_ - start + 1) `div` (count + 1) = 0 ∧
   e = ValueError "range() arg 3 must not be zero").
Proof.
  unfold split_space, py_floordiv, py_range.
  destruct (decide (count = -1)) as [->|Hc].
  - simpl. split; [intros [= <-]; by left|]. intros [[_ ->]|[? _]]; done.
  - rewrite bool_decide_eq_false_2 by lia. cbn [mbind result_bind].
    destruct (decide ((end_ - start + 1) `div` (count + 1) = 0)) as [Hz|Hz].
    + rewrite bool_decide_eq_true_2 by done. cbn [mbind result_bind].
      split; [intros [= <-]; by right|]. intros [[? _]|(_ & _ & ->)]; done.
    + rewrite bool_decide_eq_false_2 by done. cbn [mbind result_bind].
      split; [done|]. intros [[? _]|(_ & ? & _)]; done.
Qed.

Lemma seq_sorted (a n : nat) : StronglySorted lt (seq a n).
Proof.
  revert a. induction n as [|n IH]; intros a; simpl; constructor; [apply IH|].
  apply Forall_forall. intros i Hi%elem_of_seq. lia.
Qed.

(** The checkpoints of a positive step, in closed form. *)
Lemma checkpoints_from_seq (start end_ step n : Z) :
  0 < step →
  checkpoints_from start end_ step n
  = (λ i : nat, start + Z.of_nat i * step)
      <$> seq 1 (Z.to_nat n `min` (Z.to_nat (range_len start end_ step) - 1)).
Proof. intros Hstep. unfold checkpoints_from. by apply filter_below_stop. Qed.

(** The shape of the suggested checkpoints. *)
Lemma choose_checkpoints_evenly_spaced_aux (self : TableSegment) (s e n : Z) :
  start_key self = Some s → end_key self = Some e → 1 ≤ n →
  0 < (e - s + 1) `div` (n + 1) →
  let step := (e - s + 1) `div` (n + 1) in
  ∃ cs, choose_checkpoints self n = Ok cs ∧
    (∀ (i : nat) c, cs !! i = Some c → c = s + (Z.of_nat i + 1) * step) ∧
    StronglySorted Z.lt cs ∧
    (∀ c, c ∈ cs → s < c < e) ∧
    Z.of_nat (length cs) = (if bool_decide (n * step < e - s) then n else n - 1).
Proof.
  intros Hs He Hn Hstep step.
  exists (checkpoints_from s e step n). split.
  { unfold choose_checkpoints. rewrite Hs, He. apply split_space_pos_step; [lia|done]. }
  assert (Hmul : (n + 1) * step ≤ e - s + 1).
  { unfold step. apply Z.mul_div_le. lia. }
  rewrite checkpoints_from_seq by done.
  set (L := Z.to_nat (range_len s e step)).
  assert (HL : ∀ i : nat, s + Z.of_nat i * step < e ↔ (i < L)%nat).
  { intros i. by apply below_stop_iff. }
  assert (Hn1 : (Z.to_nat (n - 1) < L)%nat).
  { apply HL. rewrite Z2Nat.id by lia. nia. }
  split_and!.
  - intros i c. rewrite list_lookup_fmap, fmap_Some.
    intros (j & Hj & ->). apply lookup_seq in Hj as [-> _]. lia.
  - apply (StronglySorted_fmap _ lt Z.lt); [|apply seq_sorted].
    intros i j Hij. nia.
  - intros c (i & -> & Hi)%list_elem_of_fmap. apply elem_of_seq in Hi.
    split; [nia|]. apply HL. lia.
  - rewrite length_fmap, length_seq. case_bool_decide as Hfull.
    + assert (Z.to_nat n < L)%nat; [|lia]. apply HL. rewrite Z2Nat.id by lia. lia.
    + assert (¬ (Z.to_nat n < L)%nat); [|lia]. rewrite <- HL. rewrite Z2Nat.id by lia. lia.
Qed.

(** X4. On a bounded segment, for [n ≥ 1] and a positive step, the checkpoints
    that [choose_checkpoints] suggests are evenly spaced ([startKey + step],
    [startKey + 2·step], ...), strictly ascending and strictly between the
    two bounds; there are [n] of them when [n·step] is below the width of
    the segment and [n - 1] otherwise. *)
Theorem choose_checkpoints_evenly_spaced (self : TableSegment) (s e n : Z) :
  start_key self = Some s → end_key self = Some e → 1 ≤ n →
  0 < (e - s + 1) `div` (n + 1) →
  let step := (e - s + 1) `div` (n + 1) in
  ∃ cs, choose_checkpoints self n = Ok cs ∧
    (∀ (i : nat) c, cs !! i = Some c → c = s + (Z.of_nat i + 1) * step) ∧
    StronglySorted Z.lt cs ∧
    (∀ c, c ∈ cs → s < c < e) ∧
    Z.of_nat (length cs) = (if bool_decide (n * step < e - s) then n else n - 1).
Proof. apply choose_checkpoints_evenly_spaced_aux. Qed.

Lemma choose_checkpoints_evenly_spaced_witness :
  start_key segment_0_10 = Some 0 ∧ end_key segment_0_10 = Some 10 ∧ 1 ≤ 3 ∧
  0 < (10 - 0 + 1) `div` (3 + 1) ∧
  ∃ cs, choose_checkpoints segment_0_10 3 = Ok cs ∧ cs = [2; 4; 6].
Proof.
  split; [reflexivity|]. split; [reflexivity|]. split; [lia|]. split; [reflexivity|].
  destruct (choose_checkpoints_evenly_spaced segment_0_10 0 10 3 eq_refl eq_refl ltac:(lia) eq_refl)
    as (cs & Hcs & _).
  exists cs. split; [exact Hcs|]. vm_compute in Hcs. by injection Hcs as <-.
Defined.

(** Sorting an ascending list leaves it as it is. *)
Lemma merge_sort_le_sorted_id (l : list Z) : StronglySorted Z.lt l → merge_sort Z.le l = l.
Proof.
  intros Hl. apply (Sorted_unique Z.le).
  - apply Sorted_merge_sort; apply _.
  - apply StronglySorted_Sorted. eapply StronglySorted_weaken; [done|]. intros; lia.
  - apply merge_sort_Permutation.
Qed.

(** X5. [choose_checkpoints] and [segment_by_checkpoints] compose: on a
    bounded segment, for [n ≥ 1] and a positive step, the suggested
    checkpoints pass the range assertion and are left in their order; the
    segment is split into [n + 1] tables, or [n] when [n·step] reaches the
    width; every table has a non-empty key range inside the segment's, of
    width [step] except for the last, which ends at [endKey]. *)
Theorem bisection_step_partitions (self : TableSegment) (s e n : Z) :
  start_key self = Some s → end_key self = Some e → 1 ≤ n →
  0 < (e - s + 1) `div` (n + 1) →
  let step := (e - s + 1) `div` (n + 1) in
  ∃ cs r, choose_checkpoints self n = Ok cs ∧
    segment_by_checkpoints self cs = Ok r ∧
    seg_checkpoints r = cs ∧
    Z.of_nat (length (seg_tables r)) = (if bool_decide (n * step < e - s) then n + 1 else n) ∧
    ∀ t, t ∈ seg_tables r →
      ∃ a b, start_key t = Some a ∧ end_key t = Some b ∧
             s ≤ a ∧ a < b ∧ b ≤ e ∧ (b - a = step ∨ b = e).
Proof.
  intros Hs He Hn Hstep step.
  destruct (choose_checkpoints_evenly_spaced_aux self s e n Hs He Hn Hstep)
    as (cs & Hcs & Hpos & Hsorted & Hin & Hlen).
  fold step in Hpos, Hlen.
  assert (Hse : s < e).
  { assert ((n + 1) * step ≤ e - s + 1) by (apply Z.mul_div_le; lia). nia. }
  exists cs. eexists. split; [done|]. split.
  { apply segment_by_checkpoints_tables; [done..|].
    eapply checkpoints_in_range_true; [done..|]. intros c Hc%Hin. lia. }
  rewrite (merge_sort_le_sorted_id cs Hsorted). cbn [seg_checkpoints seg_tables].
  split_and!; [done| |].
  - rewrite length_fmap, length_zip_neighbours. simpl. rewrite length_app. simpl.
    case_bool_decide; lia.
  - intros t ([a b] & -> & Hab)%list_elem_of_fmap. exists a, b. simpl.
    split; [done|]. split; [done|].
    apply list_elem_of_lookup in Hab as [i Hi].
    apply lookup_zip_neighbours in Hi as [Ha Hb].
    assert (Hi : (i ≤ length cs)%nat).
    { apply lookup_lt_Some in Hb. simpl in Hb. rewrite length_app in Hb. simpl in Hb. lia. }
    assert (Ha' : a = s + Z.of_nat i * step).
    { destruct i as [|j]; [simpl in Ha; injection Ha as <-; lia|].
      simpl in Ha. rewrite lookup_app_l in Ha by lia. apply Hpos in Ha. lia. }
    assert (Hage : a < e).
    { destruct i as [|j]; [simpl in Ha; injection Ha as <-; lia|].
      simpl in Ha. rewrite lookup_app_l in Ha by lia.
      apply list_elem_of_lookup_2, Hin in Ha. lia. }
    simpl in Hb. destruct (decide (i < length cs)%nat) as [Hlt|Hge].
    + rewrite lookup_app_l in Hb by done.
      pose proof (Hpos _ _ Hb) as Hb'. apply list_elem_of_lookup_2, Hin in Hb. nia.
    + assert (i = length cs) as -> by lia.
      rewrite list_lookup_middle in Hb by done. injection Hb as <-. nia.
Qed.

Lemma bisection_step_partitions_witness :
  start_key segment_0_10 = Some 0 ∧ end_key segment_0_10 = Some 10 ∧ 1 ≤ 3 ∧
  0 < (10 - 0 + 1) `div` (3 + 1) ∧
  ∃ r, segment_by_checkpoints segment_0_10 [2; 4; 6] = Ok r ∧
       (λ t, (start_key t, end_key t)) <$> seg_tables r
       = [(Some 0, Some 2); (Some 2, Some 4); (Some 4, Some 6); (Some 6, Some 10)].
Proof.
  split; [reflexivity|]. split; [reflexivity|]. split; [lia|]. split; [reflexivity|].
  destruct (bisection_step_partitions segment_0_10 0 10 3 eq_refl eq_refl ltac:(lia) eq_refl)
    as (cs & r & Hcs & Hr & _).
  vm_compute in Hcs. injection Hcs as <-.
  exists r. split; [exact Hr|]. vm_compute in Hr. by injection Hr as <-.
Defined.

(** ** [diff_sets]: algebra *)

Section diff_sets_algebra.
Context `{SetOrder}.

Lemma diff_sets_nil_iff (a b : list row) : diff_sets a b = [] ↔ ∀ t, t ∈ a ↔ t ∈ b.
Proof.
  split.
  - intros Hnil t.
    pose proof (elem_of_diff_sets a b Plus t) as Hp.
    pose proof (elem_of_diff_sets a b Minus t) as Hm.
    rewrite Hnil in Hp, Hm. rewrite elem_of_nil in Hp, Hm.
    destruct (decide (t ∈ a)), (decide (t ∈ b)); tauto.
  - intros Hsame. destruct (diff_sets a b) as [|[sg t] evs] eqn:Hd; [done|].
    assert (Hin : (sg, t) ∈ diff_sets a b) by (rewrite Hd; left).
    apply elem_of_diff_sets in Hin. specialize (Hsame t). destruct sg; tauto.
Qed.

(** X6. [diff_sets] yields nothing exactly when its two collections hold the
    same tuples; in particular a collection diffed with itself gives no
    event. *)
Theorem diff_sets_empty_iff (a b : list row) :
  (diff_sets a b = [] ↔ ∀ t, t ∈ a ↔ t ∈ b) ∧ diff_sets a a = [].
Proof. split; [apply diff_sets_nil_iff|]. by apply diff_sets_nil_iff. Qed.

(** X7. Swapping the two collections swaps the signs: the events of
    [diff_sets b a] are those of [diff_sets a b] with [+] and [-]
    exchanged, each as often. *)
Theorem diff_sets_swap (a b : list row) :
  flip_event <$> diff_sets a b ≡ₚ diff_sets b a.
Proof.
  rewrite (diff_sets_Permutation a b), (diff_sets_Permutation b a).
  rewrite fmap_app, <- !list_fmap_compose. apply Permutation_app_comm.
Qed.

(** X8. Only the sets of tuples matter to [diff_sets]: repeated tuples and
    the order of the input change nothing but, at most, the order in which
    the same events come; their number is that of the distinct tuples on
    one side only. *)
Theorem diff_sets_of_sets (a a' b b' : list row) :
  ((∀ t, t ∈ a ↔ t ∈ a') → (∀ t, t ∈ b ↔ t ∈ b') → diff_sets a b ≡ₚ diff_sets a' b') ∧
  length (diff_sets a b)
  = (length (remove_dups (list_difference a b)) + length (remove_dups (list_difference b a)))%nat.
Proof.
  split.
  - intros Ha Hb. apply NoDup_Permutation; [apply diff_sets_NoDup..|].
    intros [sg t]. rewrite !elem_of_diff_sets. specialize (Ha t). specialize (Hb t).
    destruct sg; tauto.
  - rewrite diff_sets_Permutation, length_app, !length_fmap. f_equal.
    + apply Permutation_length, NoDup_Permutation;
        [apply set_iter_NoDup|apply NoDup_remove_dups|].
      intros t. by rewrite set_iter_elem, elem_of_remove_dups.
    + apply Permutation_length, NoDup_Permutation;
        [apply set_iter_NoDup|apply NoDup_remove_dups|].
      intros t. by rewrite set_iter_elem, elem_of_remove_dups.
Qed.
End diff_sets_algebra.

(** ** [diff_tables]: when a generator is returned *)

(** X9. [diff_tables] returns a generator exactly when the configuration is
    legal and both key-range queries give a minimum and a maximum. A
    threshold not above the factor is reported first, then a factor below 2,
    both before any query; only then an empty table. *)
Theorem diff_tables_returns_iff `{SetOrder} (self : TableDiffer) (table1 table2 : TableSegment) :
  ((∃ g, diff_tables self table1 table2 = Ok g) ↔
   legal_config self ∧
   (∃ a b, query_min_max (database table1) (_make_select table1) = (Some a, Some b)) ∧
   (∃ a b, query_min_max (database table2) (_make_select table2) = (Some a, Some b))) ∧
  (bisection_threshold self ≤ bisection_factor self →
   diff_tables self table1 table2
   = Raise (ValueError "Incorrect param values (bisection factor must be lower than threshold)")) ∧
  (bisection_factor self < bisection_threshold self → bisection_factor self < 2 →
   diff_tables self table1 table2
   = Raise (ValueError "Must have at least two segments per iteration (i.e. bisection_factor >= 2)")).
Proof.
  unfold diff_tables, legal_config. split_and!.
  - case_bool_decide as Ht; [split; [by intros [? ?]|intros [[? ?] _]; lia]|].
    case_bool_decide as Hf; [split; [by intros [? ?]|intros [[? ?] _]; lia]|].
    unfold query_key_range.
    destruct (query_min_max (database table1) (_make_select table1)) as [[a1|] [b1|]];
      destruct (query_min_max (database table2) (_make_select table2)) as [[a2|] [b2|]];
      cbn [mbind result_bind]; split;
      try (intros [? ?]; done);
      try (intros (_ & (? & ? & ?) & (? & ? & ?)); done).
    + intros _. split; [lia|]. split; eauto.
    + intros _. eauto.
  - intros Ht. by rewrite bool_decide_eq_true_2.
  - intros Ht Hf. rewrite bool_decide_eq_false_2 by lia. by rewrite bool_decide_eq_true_2.
Qed.

(** ** One bisection step on any pair of segments over one range *)

Lemma choose_checkpoints_wide (self : TableDiffer) (table : TableSegment) (s e : Z) :
  legal_config self → start_key table = Some s → end_key table = Some e →
  bisection_threshold self ≤ e - s →
  ∃ cs, choose_checkpoints table (bisection_factor self - 1) = Ok cs ∧
        StronglySorted Z.lt cs ∧ cs ≠ [] ∧ ∀ c, c ∈ cs → s < c < e.
Proof.
  intros [Hf Ht] Hs He Hw.
  assert (Hstep : 0 < (e - s + 1) `div` (bisection_factor self - 1 + 1)).
  { apply Z.div_str_pos. lia. }
  destruct (choose_checkpoints_evenly_spaced_aux table s e (bisection_factor self - 1) Hs He
              ltac:(lia) Hstep) as (cs & Hcs & _ & Hsorted & Hin & Hlen).
  exists cs. split_and!; [done..| |done].
  intros ->. simpl in Hlen. case_bool_decide as Hfull; [lia|].
  assert ((e - s + 1) `div` (bisection_factor self - 1 + 1) < e - s).
  { apply Z.div_lt_upper_bound; nia. }
  nia.
Qed.

Lemma bisect_body_wide `{SetOrder}
    (rec : TableSegment → TableSegment → Z → option Z → Generator) (self : TableDiffer)
    (table1 table2 : TableSegment) (s e level : Z) (max_rows : option Z) (stats : Stats) :
  legal_config self →
  start_key table1 = Some s → end_key table1 = Some e →
  start_key table2 = Some s → end_key table2 = Some e →
  bisection_threshold self ≤ default (e - s) max_rows →
  bisection_threshold self ≤ e - s →
  ∃ cs, choose_checkpoints table1 (bisection_factor self - 1) = Ok cs ∧
    StronglySorted Z.lt cs ∧ cs ≠ [] ∧ (∀ c, c ∈ cs → s < c < e) ∧
    bisect_and_diff_body rec self table1 table2 level max_rows stats
    = drain ((λ ab, _diff_tables rec (new table1 (Some ab.1) (Some ab.2))
                      (new table2 (Some ab.1) (Some ab.2)) (level + 1))
               <$> zip_neighbours ([s] ++ cs ++ [e])) stats.
Proof.
  intros Hlegal Hs1 He1 Hs2 He2 Hm Hw.
  destruct (choose_checkpoints_wide self table1 s e Hlegal Hs1 He1 Hw)
    as (cs & Hcs & Hsorted & Hne & Hin).
  exists cs. split_and!; [done..|].
  unfold bisect_and_diff_body, is_bounded, key_width. rewrite Hs1, He1, Hs2, He2.
  rewrite !bool_decide_eq_true_2 by done. cbn [negb andb].
  rewrite bool_decide_eq_false_2 by lia. rewrite Hcs. cbn [mbind result_bind].
  assert (Hin' : ∀ c, c ∈ cs → s ≤ c < e) by (intros c Hc%Hin; lia).
  rewrite (segment_by_checkpoints_tables table1 s e cs Hs1 He1).
  2: { by eapply checkpoints_in_range_true. }
  cbn [mbind result_bind seg_checkpoints seg_tables].
  rewrite (merge_sort_le_sorted_id cs Hsorted).
  rewrite (segment_by_checkpoints_tables table2 s e cs Hs2 He2).
  2: { by eapply checkpoints_in_range_true. }
  cbn [mbind result_bind seg_checkpoints seg_tables].
  rewrite (merge_sort_le_sorted_id cs Hsorted).
  unfold safezip. rewrite bool_decide_eq_true_2 by by rewrite !length_fmap.
  by rewrite zip_fmap_same, <- list_fmap_compose.
Qed.

(** ** A table diffed with itself *)

Lemma drain_quiet (Q : stop → Prop) (diff_iters : list Generator) :
  Q Exhausted → Forall (ends_quietly Q) diff_iters → ends_quietly Q (drain diff_iters).
Proof.
  intros HQ. induction 1 as [|child rest Hchild _ IH]; intros st.
  - by exists st, Exhausted.
  - simpl. destruct (Hchild st) as (st1 & stp & -> & Hstp). destruct stp as [|e|].
    + destruct (IH st1) as (st2 & stp2 & -> & Hstp2). by exists st2, stp2.
    + by exists st1, (Raised e).
    + by exists st1, Diverged.
Qed.

Lemma self_pair_quiet (rec : TableSegment → TableSegment → Z → option Z → Generator)
    (table : TableSegment) (level : Z) :
  is_Some (start_key table) → is_Some (end_key table) →
  ends_quietly (λ stp, (stp = Exhausted ∨ stp = Raised AssertionError) ∧
                       (null_when_empty (database table) → stp = Exhausted))
               (_diff_tables rec table table level).
Proof.
  intros [s Hs] [e He] st. unfold _diff_tables. rewrite Hs, He.
  unfold count_and_checksum.
  pose proof (λ Hnull : null_when_empty (database table), Hnull (_make_select table)) as Hnull.
  destruct (query_count_checksum (database table) (_make_select table)) as [count checksum].
  simpl in Hnull. unfold pair_step_of.
  destruct (decide (default 0 count = 0)) as [Hz|Hz].
  - rewrite !bool_decide_eq_true_2 by done. simpl.
    destruct checksum as [k|]; simpl.
    + exists st, (Raised AssertionError). split; [done|]. split; [by right|].
      intros Hn. by specialize (Hnull Hn Hz).
    + exists st, Exhausted. split; [done|]. split; [by left|done].
  - rewrite (bool_decide_eq_false_2 (default 0 count = 0)) by done. simpl.
    rewrite bool_decide_eq_false_2 by naive_solver.
    eexists _, Exhausted. split; [done|]. split; [by left|done].
Qed.

(** X10. A table diffed with itself yields no event. For a legal
    configuration and a table with a key range, every run of the generator
    that [diff_tables] returns for the table against itself ends without
    having yielded anything: normally, if the database reports a null
    checksum wherever it counts no row, and otherwise possibly by the
    assertion on that. No checksum is trusted for this and no recursion takes
    place. *)
Theorem diff_tables_self_is_empty `{SetOrder} (self : TableDiffer) (table : TableSegment)
    (min_key max_key : Z) :
  legal_config self →
  query_min_max (database table) (_make_select table) = (Some min_key, Some max_key) →
  ∃ g, diff_tables self table table = Ok g ∧
    ∀ fuel stats, (1 ≤ fuel)%nat →
      ∃ stats' stp, g fuel stats = (stats', ([], stp)) ∧
        (stp = Exhausted ∨ stp = Raised AssertionError) ∧
        (null_when_empty (database table) → stp = Exhausted).
Proof.
  intros Hlegal Hrange. eexists. split.
  { unfold diff_tables. destruct Hlegal as [Hf Ht].
    rewrite !bool_decide_eq_false_2 by lia.
    rewrite (query_key_range_Ok _ _ _ Hrange). cbn [mbind result_bind fst snd].
    rewrite Z.min_id, Z.max_id. reflexivity. }
  intros [|fuel] stats Hfuel; [lia|]. cbv beta. cbn [_bisect_and_diff_tables].
  set (t := new table (Some min_key) (Some (max_key + 1))).
  destruct (decide (max_key + 1 - min_key < bisection_threshold self)) as [Hleaf|Hwide].
  - exists stats, Exhausted. split; [|split; [by left|done]].
    unfold bisect_and_diff_body. change (is_bounded t) with true.
    change (key_width t) with (max_key + 1 - min_key). cbn [negb andb default].
    rewrite bool_decide_eq_true_2 by done.
    by rewrite (proj2 (diff_sets_nil_iff (get_values t) (get_values t))).
  - destruct (bisect_body_wide (_bisect_and_diff_tables fuel self) self t t min_key (max_key + 1) 0
                None stats Hlegal eq_refl eq_refl eq_refl eq_refl)
      as (cs & _ & _ & _ & _ & ->); [simpl; lia|lia|].
    apply drain_quiet; [split; [by left|done]|].
    apply Forall_fmap, Forall_forall. intros [a b] _.
    apply (self_pair_quiet _ (new t (Some a) (Some b))); by eexists.
Qed.

Lemma table_database_null_when_empty (hash : row → Z) (rows : list row) :
  null_when_empty (table_database hash rows).
Proof.
  intros q. simpl.
  by destruct (select_rows rows (where_start_key q) (where_end_key q)).
Qed.

Lemma diff_tables_self_is_empty_witness :
  ∃ g, diff_tables (differ 2 3) (table_segment example_hash left_table)
         (table_segment example_hash left_table) = Ok g ∧
       (g 4%nat ∅).2 = ([], Exhausted).
Proof.
  destruct (diff_tables_self_is_empty (differ 2 3) (table_segment example_hash left_table) 1 8
              legal_2_3 eq_refl) as (g & Hg & Hrun).
  exists g. split; [exact Hg|].
  destruct (Hrun 4%nat ∅ ltac:(lia)) as (stats' & stp & Heq & _ & Hnull).
  rewrite Heq. simpl. f_equal. apply Hnull, table_database_null_when_empty.
Defined.

(** ** Where the statistics are written *)

Lemma drain_keeps_stats (diff_iters : list Generator) :
  Forall (λ child : Generator, ∀ stats, (child stats).1 = stats) diff_iters →
  ∀ stats, (drain diff_iters stats).1 = stats.
Proof.
  induction 1 as [|child rest Hchild _ IH]; intros st; [done|].
  simpl. specialize (Hchild st). destruct (child st) as [st1 [res stp]]. simpl in Hchild. subst st1.
  destruct stp; [|done..].
  specialize (IH st). by destruct (drain rest st) as [st2 [evs stp2]].
Qed.

Lemma _diff_tables_keeps_stats (rec : TableSegment → TableSegment → Z → option Z → Generator)
    (table1 table2 : TableSegment) (level : Z) (stats : Stats) :
  level ≠ 1 →
  (∀ t1 t2 max_rows st, (rec t1 t2 level max_rows st).1 = st) →
  (_diff_tables rec table1 table2 level stats).1 = stats.
Proof.
  intros Hlevel Hrec. unfold _diff_tables.
  destruct (end_key table2), (start_key table1); try done.
  destruct (count_and_checksum table1) as [count1 checksum1].
  destruct (count_and_checksum table2) as [count2 checksum2].
  destruct (pair_step_of _ _ _ _) as [[]|[]]; try done.
  - rewrite bool_decide_eq_false_2 by done. apply Hrec.
  - by rewrite bool_decide_eq_false_2.
Qed.

Lemma bisect_keeps_stats `{SetOrder} (fuel : nat) (self : TableDiffer) :
  ∀ table1 table2 level max_rows stats, 1 ≤ level →
    (_bisect_and_diff_tables fuel self table1 table2 level max_rows stats).1 = stats.
Proof.
  induction fuel as [|fuel IH]; intros table1 table2 level max_rows stats Hlevel; [done|].
  cbn [_bisect_and_diff_tables]. unfold bisect_and_diff_body.
  destruct (negb _); [done|]. case_bool_decide; [done|].
  destruct (_ ≫= _) as [pairs|e]; [|done].
  apply drain_keeps_stats, Forall_fmap, Forall_forall. intros [t1 t2] _ st. simpl.
  apply _diff_tables_keeps_stats; [lia|]. intros. apply IH. lia.
Qed.

(** X11. The statistics dictionary is written at one place only: by
    [_diff_tables] at level 1. A run of [_bisect_and_diff_tables] that starts
    at a level of at least 1, and a run of [_diff_tables] at a level of at
    least 2, leave the dictionary exactly as they found it, whatever the
    tables hold and however the run ends. *)
Theorem stats_written_at_level_1_only `{SetOrder} (fuel : nat) (self : TableDiffer)
    (table1 table2 : TableSegment) (level : Z) (max_rows : option Z) (stats : Stats) :
  1 ≤ level →
  (_bisect_and_diff_tables fuel self table1 table2 level max_rows stats).1 = stats ∧
  (2 ≤ level →
   (_diff_tables (_bisect_and_diff_tables fuel self) table1 table2 level stats).1 = stats).
Proof.
  intros Hlevel. split; [by apply bisect_keeps_stats|].
  intros Hlevel2. apply _diff_tables_keeps_stats; [lia|].
  intros. by apply bisect_keeps_stats.
Qed.

Lemma stats_written_at_level_1_only_witness :
  1 ≤ 1 ∧
  (_bisect_and_diff_tables 3 (differ 2 3) (table_range example_hash left_table 0 10)
     (table_range example_hash right_table 0 10) 1 None ∅).1 = ∅.
Proof.
  split; [lia|].
  apply (stats_written_at_level_1_only 3 (differ 2 3) (table_range example_hash left_table 0 10)
           (table_range example_hash right_table 0 10) 1 None ∅). lia.
Defined.

(** ** What [table1_count] counts *)

Lemma pair_count_effect `{SetOrder} (fuel : nat) (self : TableDiffer)
    (table1 table2 : TableSegment) (stats stats' : Stats) (out : output) :
  is_Some (start_key table1) → is_Some (end_key table2) →
  _diff_tables (_bisect_and_diff_tables fuel self) table1 table2 1 stats = (stats', out) →
  default 0 (stats' !! "table1_count")
  = default 0 (stats !! "table1_count") + (count_and_checksum table1).1 ∧
  ∀ k, k ≠ "table1_count" → stats' !! k = stats !! k.
Proof.
  intros [s Hs] [e He]. unfold _diff_tables. rewrite Hs, He.
  destruct (count_and_checksum table1) as [count1 checksum1].
  destruct (count_and_checksum table2) as [count2 checksum2].
  cbn [fst]. unfold pair_step_of.
  destruct (decide (count1 = 0 ∧ count2 = 0)) as [[-> ->]|Hne].
  - rewrite !bool_decide_eq_true_2 by done. cbn [andb].
    destruct (_ && _); intros [= <- <-]; split; (lia || done).
  - assert (bool_decide (count1 = 0) && bool_decide (count2 = 0) = false) as ->.
    { apply andb_false_iff. rewrite !bool_decide_eq_false. lia. }
    rewrite (bool_decide_eq_true_2 (1 = 1)) by done.
    assert (Hadd : ∀ st, st = add_table1_count count1 stats →
              default 0 (st !! "table1_count") = default 0 (stats !! "table1_count") + count1 ∧
              ∀ k, k ≠ "table1_count" → st !! k = stats !! k).
    { intros st ->. unfold add_table1_count. rewrite lookup_insert_eq. split; [done|].
      intros k Hk. by rewrite lookup_insert_ne. }
    destruct (bool_decide (checksum1 ≠ checksum2)).
    + intros Hrun. apply Hadd.
      pose proof (bisect_keeps_stats fuel self table1 table2 1 (Some (Z.max count1 count2))
                    (add_table1_count count1 stats) ltac:(lia)) as Hkeep.
      by rewrite Hrun in Hkeep.
    + intros [= <- <-]. by apply Hadd.
Qed.

Lemma drain_counts {X} (G : X → Generator) (count : X → Z) (k : string) :
  (∀ x stats stats' out, G x stats = (stats', out) →
     default 0 (stats' !! k) = default 0 (stats !! k) + count x ∧
     ∀ k', k' ≠ k → stats' !! k' = stats !! k') →
  ∀ l stats stats' evs, drain (G <$> l) stats = (stats', (evs, Exhausted)) →
    default 0 (stats' !! k) = default 0 (stats !! k) + foldr (λ x acc, count x + acc) 0 l ∧
    ∀ k', k' ≠ k → stats' !! k' = stats !! k'.
Proof.
  intros HG. induction l as [|x l IH]; intros st st' evs.
  - intros [= <- <-]. split; [simpl; lia|done].
  - csimpl. destruct (G x st) as [st1 [res stp]] eqn:Hx.
    destruct (HG _ _ _ _ Hx) as [Hk Hothers].
    destruct stp; [|intros [=]..].
    destruct (drain (G <$> l) st1) as [st2 [evs2 stp2]] eqn:Hrest.
    intros [= <- <- ->]. destruct (IH _ _ _ Hrest) as [Hk2 Hothers2].
    split; [lia|]. intros k' Hk'. rewrite Hothers2, Hothers; done.
Qed.

Lemma table1_count_first_level `{SetOrder} (self : TableDiffer) (table1 table2 : TableSegment)
    (s e : Z) (fuel : nat) (stats stats' : Stats) (evs : list event) :
  legal_config self →
  start_key table1 = Some s → end_key table1 = Some e →
  start_key table2 = Some s → end_key table2 = Some e →
  bisection_threshold self ≤ e - s →
  _bisect_and_diff_tables (S fuel) self table1 table2 0 None stats = (stats', (evs, Exhausted)) →
  ∃ cs, choose_checkpoints table1 (bisection_factor self - 1) = Ok cs ∧
    default 0 (stats' !! "table1_count")
    = default 0 (stats !! "table1_count") + count_between table1 ([s] ++ cs ++ [e]) ∧
    ∀ k, k ≠ "table1_count" → stats' !! k = stats !! k.
Proof.
  intros Hlegal Hs1 He1 Hs2 He2 Hw. cbn [_bisect_and_diff_tables].
  destruct (bisect_body_wide (_bisect_and_diff_tables fuel self) self table1 table2 s e 0 None stats
              Hlegal Hs1 He1 Hs2 He2) as (cs & Hcs & _ & _ & _ & ->); [done..|].
  intros Hrun. exists cs. split; [done|].
  apply (drain_counts _ (λ ab, (count_and_checksum (new table1 (Some ab.1) (Some ab.2))).1)
           "table1_count") in Hrun; [done|].
  intros [a b] st st1 out Hpair. eapply pair_count_effect; [| |exact Hpair]; by eexists.
Qed.

(** X12. What a bisecting run adds to [table1_count]. When
    [_bisect_and_diff_tables] runs at level 0 on two segments over one key
    range at least [bisection_threshold] wide and its generator is exhausted,
    [stats["table1_count"]] has grown by the sum of the counts of the
    first-level segments of [table1] (those between the neighbouring
    positions of the chosen checkpoints), a missing entry counting as 0, and
    no other entry of the dictionary has changed. Deeper levels add
    nothing. *)
Theorem table1_count_sums_first_level `{SetOrder} (self : TableDiffer)
    (table1 table2 : TableSegment) (s e : Z) (fuel : nat) (stats stats' : Stats)
    (evs : list event) :
  legal_config self →
  start_key table1 = Some s → end_key table1 = Some e →
  start_key table2 = Some s → end_key table2 = Some e →
  bisection_threshold self ≤ e - s →
  _bisect_and_diff_tables (S fuel) self table1 table2 0 None stats = (stats', (evs, Exhausted)) →
  ∃ cs, choose_checkpoints table1 (bisection_factor self - 1) = Ok cs ∧
    default 0 (stats' !! "table1_count")
    = default 0 (stats !! "table1_count") + count_between table1 ([s] ++ cs ++ [e]) ∧
    ∀ k, k ≠ "table1_count" → stats' !! k = stats !! k.
Proof. apply table1_count_first_level. Qed.

Lemma table1_count_sums_first_level_witness :
  ∃ stats' evs cs,
    _bisect_and_diff_tables 4 (differ 2 3) (table_range example_hash left_table 1 9)
      (table_range example_hash right_table 1 9) 0 None ∅ = (stats', (evs, Exhausted)) ∧
    choose_checkpoints (table_range example_hash left_table 1 9) (2 - 1) = Ok cs ∧
    default 0 (stats' !! "table1_count")
    = 0 + count_between (table_range example_hash left_table 1 9) ([1] ++ cs ++ [9]).
Proof.
  set (run := _bisect_and_diff_tables 4 (differ 2 3) (table_range example_hash left_table 1 9)
                (table_range example_hash right_table 1 9) 0 None ∅).
  assert (Hrun : run = (run.1, (run.2.1, Exhausted))) by (vm_compute; reflexivity).
  destruct (table1_count_sums_first_level (differ 2 3) (table_range example_hash left_table 1 9)
              (table_range example_hash right_table 1 9) 1 9 3 ∅ run.1 run.2.1 legal_2_3
              eq_refl eq_refl eq_refl eq_refl ltac:(simpl; lia) Hrun) as (cs & Hcs & Hcount & _).
  exists run.1, run.2.1, cs. split; [exact Hrun|]. split; [exact Hcs|exact Hcount].
Defined.

(** ** [table1_count] on a table held as a list of rows *)

Lemma select_rows_split (rows : list row) (p q r : Z) :
  p ≤ q → q ≤ r →
  (length (select_rows rows (Some p) (Some q)) + length (select_rows rows (Some q) (Some r)))%nat
  = length (select_rows rows (Some p) (Some r)).
Proof.
  intros Hpq Hqr. unfold select_rows. induction rows as [|t rows IH]; [done|].
  rewrite !filter_cons.
  destruct (decide (in_key_range (Some p) (Some q) t)) as [[H1 H2]|H1];
    destruct (decide (in_key_range (Some q) (Some r) t)) as [[H3 H4]|H3];
    destruct (decide (in_key_range (Some p) (Some r) t)) as [[H5 H6]|H5];
    unfold in_key_range in *; simpl in *; try lia.
Qed.

Lemma select_rows_empty_range (rows : list row) (p : Z) :
  select_rows rows (Some p) (Some p) = [].
Proof.
  unfold select_rows. induction rows as [|t rows IH]; [done|].
  rewrite filter_cons_False; [done|]. unfold in_key_range. simpl. lia.
Qed.

Lemma select_rows_whole (rows : list row) (lo hi : option Z) :
  (∀ t, t ∈ rows → in_key_range lo hi t) → select_rows rows lo hi = rows.
Proof.
  unfold select_rows. induction rows as [|t rows IH]; intros Hin; [done|].
  rewrite filter_cons_True by (apply Hin; left). f_equal. apply IH.
  intros t' Ht'. apply Hin. by right.
Qed.

Lemma count_between_chain (hash : row → Z) (rows : list row) (s e : Z) (l : list Z) :
  ∀ p, StronglySorted Z.le (p :: l) →
    count_between (table_range hash rows s e) (p :: l)
    = Z.of_nat (length (select_rows rows (Some p) (Some (default p (last l))))).
Proof.
  unfold count_between. induction l as [|q l IH]; intros p Hsorted.
  - simpl. by rewrite select_rows_empty_range.
  - rewrite zip_neighbours_cons. cbn [foldr fst snd].
    apply StronglySorted_inv in Hsorted as [Hrest Hp].
    rewrite (IH q Hrest).
    change (count_and_checksum (new (table_range hash rows s e) (Some p) (Some q))).1
      with (Z.of_nat (length (select_rows rows (Some p) (Some q)))).
    assert (Hlast : q ≤ default q (last l) ∧ default p (last (q :: l)) = default q (last l)).
    { destruct (last l) as [z|] eqn:Hl.
      - rewrite last_cons, Hl. simpl. split; [|done].
        apply StronglySorted_inv in Hrest as [_ Hq].
        rewrite Forall_forall in Hq. apply Hq. by apply last_Some_elem_of.
      - rewrite last_cons, Hl. simpl. split; [lia|done]. }
    destruct Hlast as [Hle ->].
    rewrite <- (select_rows_split rows p q (default q (last l))); [lia| |done].
    apply Forall_inv in Hp. done.
Qed.

Lemma sorted_lt_le (l : list Z) : StronglySorted Z.lt l → StronglySorted Z.le l.
Proof.
  induction 1 as [|x l _ IH Hx]; constructor; [done|].
  eapply Forall_impl; [exact Hx|]. intros; simpl in *; lia.
Qed.

(** X13. For tables held as lists of rows, where a count query returns the
    number of rows in the key range: once a run of the generator of
    [diff_tables] is exhausted, [stats["table1_count"]] has grown by the
    number of rows of the first table, provided the key range of the two
    tables is at least [bisection_threshold] wide. On a narrower range the
    rows are compared at once and the dictionary is left as it was: the rows
    of the first table are then not counted at all. No assumption is made on
    the keys or on the checksums. *)
Theorem table1_count_counts_rows `{SetOrder} (hash : row → Z) (A B : list row)
    (self : TableDiffer) (min1 max1 min2 max2 : Z) :
  legal_config self →
  sql_min (row_key <$> A) = Some min1 → sql_max (row_key <$> A) = Some max1 →
  sql_min (row_key <$> B) = Some min2 → sql_max (row_key <$> B) = Some max2 →
  ∃ g, diff_tables self (table_segment hash A) (table_segment hash B) = Ok g ∧
    ∀ fuel stats stats' evs, g fuel stats = (stats', (evs, Exhausted)) →
      if bool_decide (bisection_threshold self ≤ Z.max max1 max2 + 1 - Z.min min1 min2)
      then default 0 (stats' !! "table1_count")
           = default 0 (stats !! "table1_count") + Z.of_nat (length A) ∧
           ∀ k, k ≠ "table1_count" → stats' !! k = stats !! k
      else stats' = stats.
Proof.
  intros Hlegal Hmin1 Hmax1 Hmin2 Hmax2.
  set (start := Z.min min1 min2). set (end_ := Z.max max1 max2 + 1).
  exists (λ fuel, _bisect_and_diff_tables fuel self
                    (table_range hash A start end_) (table_range hash B start end_) 0 None).
  split.
  { unfold diff_tables. destruct Hlegal as [Hf Ht].
    rewrite !bool_decide_eq_false_2 by lia.
    rewrite (query_key_range_Ok (table_segment hash A) min1 max1).
    2: { simpl. by rewrite select_rows_all, Hmin1, Hmax1. }
    rewrite (query_key_range_Ok (table_segment hash B) min2 max2).
    2: { simpl. by rewrite select_rows_all, Hmin2, Hmax2. }
    done. }
  intros [|fuel] stats stats' evs; [intros [=]|]. cbv beta.
  case_bool_decide as Hwide.
  - intros Hrun.
    destruct (table1_count_first_level self (table_range hash A start end_)
                (table_range hash B start end_) start end_ fuel stats stats' evs Hlegal
                eq_refl eq_refl eq_refl eq_refl Hwide Hrun) as (cs & Hcs & Hcount & Hothers).
    split; [|done]. rewrite Hcount. f_equal.
    destruct (choose_checkpoints_wide self (table_range hash A start end_) start end_ Hlegal
                eq_refl eq_refl Hwide) as (cs' & Hcs' & Hsorted & _ & Hin).
    rewrite Hcs in Hcs'. injection Hcs' as <-.
    assert (Hchain : StronglySorted Z.le ([start] ++ cs ++ [end_])).
    { apply positions_sorted.
      - by apply sorted_lt_le.
      - intros c Hc%Hin. lia.
      - destruct Hlegal; lia. }
    change ([start] ++ cs ++ [end_]) with (start :: (cs ++ [end_])) in *.
    rewrite (count_between_chain hash A start end_ _ start Hchain).
    rewrite last_snoc. simpl. rewrite select_rows_whole; [done|].
    intros t Ht.
    assert (Hk : row_key t ∈ row_key <$> A) by (apply list_elem_of_fmap; eauto).
    destruct (sql_min_spec (row_key <$> A)) as (m & Hm & _ & Hle); [by intros Hnil; rewrite Hnil in Hk; inv Hk|].
    destruct (sql_max_spec (row_key <$> A)) as (M & HM & _ & Hge); [by intros Hnil; rewrite Hnil in Hk; inv Hk|].
    rewrite Hmin1 in Hm. rewrite Hmax1 in HM. injection Hm as <-. injection HM as <-.
    specialize (Hle _ Hk). specialize (Hge _ Hk).
    unfold in_key_range, lower_ok, upper_ok. subst start end_. lia.
  - cbn [_bisect_and_diff_tables]. unfold bisect_and_diff_body.
    change (is_bounded (table_range hash A start end_)) with true.
    change (is_bounded (table_range hash B start end_)) with true.
    change (key_width (table_range hash A start end_)) with (end_ - start).
    cbn [negb andb default]. rewrite bool_decide_eq_true_2 by (subst start end_; lia).
    by intros [= <- _].
Qed.

Lemma table1_count_counts_rows_witness :
  ∃ g, diff_tables (differ 2 3) (table_segment example_hash left_table)
         (table_segment example_hash right_table) = Ok g ∧
       default 0 ((g 4%nat ∅).1 !! "table1_count")
       = default 0 ((∅ : Stats) !! "table1_count") + Z.of_nat (length left_table).
Proof.
  destruct (table1_count_counts_rows example_hash left_table right_table (differ 2 3) 1 8 1 8
              legal_2_3 eq_refl eq_refl eq_refl eq_refl) as (g & Hg & Hcount).
  exists g. split; [exact Hg|].
  assert (Hrun : g 4%nat ∅ = ((g 4%nat ∅).1, ((g 4%nat ∅).2.1, Exhausted))).
  { assert (Heq : Ok g = Ok (λ fuel, _bisect_and_diff_tables fuel (differ 2 3)
                                (table_range example_hash left_table 1 9)
                                (table_range example_hash right_table 1 9) 0 None))
      by (rewrite <- Hg; reflexivity).
    injection Heq as ->. vm_compute. reflexivity. }
  specialize (Hcount 4%nat ∅ _ _ Hrun). simpl in Hcount. destruct Hcount as [Hc _]. exact Hc.
Defined.

(** ** [_relevant_columns] *)

Lemma elem_of_named (u : option string) (c : string) : c ∈ named u ↔ u = Some c ∧ c ≠ "".
Proof.
  unfold named. destruct u as [c'|].
  - case_bool_decide as Hc.
    + rewrite elem_of_nil. naive_solver.
    + rewrite list_elem_of_singleton. naive_solver.
  - rewrite elem_of_nil. naive_solver.
Qed.

Lemma sorted_set_spec (l : list string) :
  StronglySorted String.le (merge_sort String.le (remove_dups l)) ∧
  NoDup (merge_sort String.le (remove_dups l)) ∧
  ∀ c, c ∈ merge_sort String.le (remove_dups l) ↔ c ∈ l.
Proof.
  split_and!.
  - apply StronglySorted_merge_sort; apply _.
  - rewrite merge_sort_Permutation. apply NoDup_remove_dups.
  - intros c. by rewrite merge_sort_Permutation, elem_of_remove_dups.
Qed.

(** X14. The column list that is checksummed is canonical. It starts with
    the key column; the columns after it are the extra columns and the
    update column (if it is set and not empty), each once, in ascending
    order. So two segments with one key column whose extra and update
    columns make up the same set of names, in whatever order and however
    often repeated, have the same list. *)
Theorem _relevant_columns_canonical (self other : TableSegment) :
  (∃ extras, _relevant_columns self = key_column self :: extras ∧
     StronglySorted String.le extras ∧ NoDup extras ∧
     ∀ c, c ∈ extras ↔ c ∈ extra_columns self ∨ (update_column self = Some c ∧ c ≠ "")) ∧
  (key_column other = key_column self →
   (∀ c, c ∈ extra_columns other ∨ (update_column other = Some c ∧ c ≠ "") ↔
         c ∈ extra_columns self ∨ (update_column self = Some c ∧ c ≠ "")) →
   _relevant_columns other = _relevant_columns self).
Proof.
  split.
  - eexists. split; [reflexivity|].
    destruct (sorted_set_spec (extra_columns self ++ named (update_column self)))
      as (Hsorted & Hnd & Hin).
    split_and!; [done..|]. intros c. by rewrite Hin, elem_of_app, elem_of_named.
  - intros Hkey Hsame. unfold _relevant_columns. rewrite Hkey. f_equal.
    destruct (sorted_set_spec (extra_columns self ++ named (update_column self)))
      as (Hsorted1 & Hnd1 & Hin1).
    destruct (sorted_set_spec (extra_columns other ++ named (update_column other)))
      as (Hsorted2 & Hnd2 & Hin2).
    apply (StronglySorted_unique String.le); [done..|].
    apply NoDup_Permutation; [done..|].
    intros c. by rewrite Hin1, Hin2, !elem_of_app, !elem_of_named.
Qed.

(** ** What the generator yields, whatever the keys and the checksums *)

Lemma choose_checkpoints_between (table : TableSegment) (s e n : Z) (cs : list Z) :
  start_key table = Some s → end_key table = Some e → 0 ≤ n → s ≤ e →
  choose_checkpoints table n = Ok cs → ∀ c, c ∈ cs → s < c < e.
Proof.
  intros Hs He Hn Hse. unfold choose_checkpoints. rewrite Hs, He.
  assert (Hstep : 0 ≤ (e - s + 1) `div` (n + 1)) by (apply Z.div_pos; lia).
  destruct (decide ((e - s + 1) `div` (n + 1) = 0)) as [Hz|Hnz].
  - rewrite split_space_zero_step by (done || lia). done.
  - rewrite split_space_pos_step by lia. intros [= <-] c.
    rewrite elem_of_checkpoints_from. intros (Hlt & i & Hi & ->). nia.
Qed.

Lemma bisect_body_split `{SetOrder}
    (rec : TableSegment → TableSegment → Z → option Z → Generator) (self : TableDiffer)
    (table1 table2 : TableSegment) (s e level : Z) (max_rows : option Z) (stats : Stats)
    (cs : list Z) :
  start_key table1 = Some s → end_key table1 = Some e →
  start_key table2 = Some s → end_key table2 = Some e →
  ¬ default (e - s) max_rows < bisection_threshold self →
  choose_checkpoints table1 (bisection_factor self - 1) = Ok cs →
  (∀ c, c ∈ cs → s ≤ c < e) →
  bisect_and_diff_body rec self table1 table2 level max_rows stats
  = drain ((λ ab, _diff_tables rec (new table1 (Some ab.1) (Some ab.2))
                    (new table2 (Some ab.1) (Some ab.2)) (level + 1))
             <$> zip_neighbours ([s] ++ merge_sort Z.le cs ++ [e])) stats.
Proof.
  intros Hs1 He1 Hs2 He2 Hm Hcs Hin.
  unfold bisect_and_diff_body, is_bounded, key_width. rewrite Hs1, He1, Hs2, He2.
  rewrite !bool_decide_eq_true_2 by done. cbn [negb andb].
  rewrite bool_decide_eq_false_2 by done. rewrite Hcs. cbn [mbind result_bind].
  rewrite (segment_by_checkpoints_tables table1 s e cs Hs1 He1).
  2: { by eapply checkpoints_in_range_true. }
  cbn [mbind result_bind seg_checkpoints seg_tables].
  rewrite (segment_by_checkpoints_tables table2 s e (merge_sort Z.le cs) Hs2 He2).
  2: { apply (checkpoints_in_range_true table2 s e); [done..|].
       intros c Hc. apply Hin. by apply (elem_of_merge_sort_le cs c). }
  cbn [mbind result_bind seg_checkpoints seg_tables].
  rewrite merge_sort_le_idemp.
  unfold safezip. rewrite bool_decide_eq_true_2 by by rewrite !length_fmap.
  by rewrite zip_fmap_same, <- list_fmap_compose.
Qed.

Lemma ordered_differences_nil (A B : list row) (s e : Z) : ordered_differences A B s e [].
Proof. split_and!; constructor. Qed.

Lemma ordered_differences_app (A B : list row) (p q r : Z) (evs1 evs2 : list event) :
  p ≤ q → q ≤ r →
  ordered_differences A B p q evs1 → ordered_differences A B q r evs2 →
  ordered_differences A B p r (evs1 ++ evs2).
Proof.
  intros Hpq Hqr (Hg1 & Hk1 & Hs1) (Hg2 & Hk2 & Hs2). split_and!.
  - by apply Forall_app.
  - apply Forall_app. split; (eapply Forall_impl; [eassumption|]); intros ev ?; simpl in *; lia.
  - apply StronglySorted_app. split_and!; [|done..].
    intros x1 x2 Hx1 Hx2. rewrite Forall_forall in Hk1, Hk2.
    specialize (Hk1 _ Hx1). specialize (Hk2 _ Hx2). unfold key_order. simpl in *. lia.
Qed.

Lemma diff_sets_ordered_differences `{SetOrder} (A B : list row) (s e : Z) :
  ordered_differences A B s e
    (diff_sets (select_rows A (Some s) (Some e)) (select_rows B (Some s) (Some e))).
Proof.
  assert (Hev : ∀ ev, ev ∈ diff_sets (select_rows A (Some s) (Some e))
                            (select_rows B (Some s) (Some e)) →
                genuine A B ev ∧ s ≤ event_key ev < e).
  { intros [sg t] Hin. apply elem_of_diff_sets in Hin. unfold genuine, event_key. simpl.
    destruct sg; rewrite !elem_of_select_rows in Hin; unfold in_key_range in Hin;
      simpl in Hin; naive_solver. }
  split_and!.
  - apply Forall_forall. intros ev Hin. by apply Hev.
  - apply Forall_forall. intros ev Hin. by apply Hev.
  - pose proof (diff_sets_sorted (select_rows A (Some s) (Some e))
                  (select_rows B (Some s) (Some e))) as Hsorted.
    clear Hev. induction Hsorted as [|ev evs _ IH Hall]; [constructor|].
    constructor; [done|].
    eapply Forall_impl; [exact Hall|]. intros ev' [?|[? _]]; unfold key_order; lia.
Qed.

Lemma drain_ordered_differences (A B : list row) (G : Z * Z → Generator) (l : list Z) :
  (∀ a b stats, a ≤ b → ordered_differences A B a b (G (a, b) stats).2.1) →
  ∀ p stats, StronglySorted Z.le (p :: l) →
    ordered_differences A B p (default p (last l)) (drain (G <$> zip_neighbours (p :: l)) stats).2.1.
Proof.
  intros HG. induction l as [|q l IH]; intros p st Hsorted.
  - apply ordered_differences_nil.
  - rewrite zip_neighbours_cons. csimpl.
    apply StronglySorted_inv in Hsorted as [Hrest Hp].
    assert (Hpq : p ≤ q) by (by apply Forall_inv in Hp).
    assert (Hlast : q ≤ default q (last l) ∧ default p (last (q :: l)) = default q (last l)).
    { destruct (last l) as [z|] eqn:Hl.
      - rewrite last_cons, Hl. simpl. split; [|done].
        apply StronglySorted_inv in Hrest as [_ Hq].
        rewrite Forall_forall in Hq. apply Hq. by apply last_Some_elem_of.
      - rewrite last_cons, Hl. simpl. split; [lia|done]. }
    destruct Hlast as [Hle ->].
    specialize (HG p q st Hpq). destruct (G (p, q) st) as [st1 [res stp]]. simpl in HG.
    destruct stp; [|apply ordered_differences_nil..].
    specialize (IH q st1 Hrest). destruct (drain _ st1) as [st2 [evs stp2]]. simpl in *.
    by apply (ordered_differences_app A B p q).
Qed.

Lemma bisect_ordered_differences `{SetOrder} (hash : row → Z) (A B : list row)
    (self : TableDiffer) (fuel : nat) :
  legal_config self →
  ∀ s e level max_rows stats, s ≤ e →
    ordered_differences A B s e
      (_bisect_and_diff_tables fuel self (table_range hash A s e) (table_range hash B s e)
         level max_rows stats).2.1.
Proof.
  intros Hlegal. induction fuel as [|fuel IH]; intros s e level max_rows stats Hse.
  { apply ordered_differences_nil. }
  cbn [_bisect_and_diff_tables].
  destruct (decide (default (e - s) max_rows < bisection_threshold self)) as [Hleaf|Hwide].
  - unfold bisect_and_diff_body.
    change (is_bounded (table_range hash A s e)) with true.
    change (is_bounded (table_range hash B s e)) with true.
    change (key_width (table_range hash A s e)) with (e - s).
    cbn [negb andb]. rewrite bool_decide_eq_true_2 by done.
    rewrite !get_values_table. apply diff_sets_ordered_differences.
  - destruct (choose_checkpoints (table_range hash A s e) (bisection_factor self - 1))
      as [cs|err] eqn:Hcs.
    + assert (Hn : 0 ≤ bisection_factor self - 1) by (destruct Hlegal; lia).
      pose proof (choose_checkpoints_between (table_range hash A s e) s e _ cs eq_refl eq_refl
                    Hn Hse Hcs) as Hin.
      rewrite (bisect_body_split _ self (table_range hash A s e) (table_range hash B s e) s e
                 level max_rows stats cs eq_refl eq_refl eq_refl eq_refl Hwide Hcs)
        by (intros c Hc%Hin; lia).
      assert (Hchain : StronglySorted Z.le ([s] ++ merge_sort Z.le cs ++ [e])).
      { apply positions_sorted; [apply merge_sort_le_sorted| |done].
        intros c Hc. apply (elem_of_merge_sort_le cs c), Hin in Hc. lia. }
      change ([s] ++ merge_sort Z.le cs ++ [e]) with (s :: (merge_sort Z.le cs ++ [e])) in *.
      pose proof (drain_ordered_differences A B
                    (λ ab, _diff_tables (_bisect_and_diff_tables fuel self)
                             (new (table_range hash A s e) (Some ab.1) (Some ab.2))
                             (new (table_range hash B s e) (Some ab.1) (Some ab.2)) (level + 1))
                    (merge_sort Z.le cs ++ [e])) as Hdrain.
      rewrite last_snoc in Hdrain. apply Hdrain; [|done].
      intros a b st Hab. cbn [fst snd]. unfold _diff_tables. cbn [end_key start_key new].
      destruct (count_and_checksum _) as [count1 checksum1].
      destruct (count_and_checksum _) as [count2 checksum2].
      destruct (pair_step_of _ _ _ _) as [[]|[]]; try apply ordered_differences_nil.
      apply (IH a b); done.
    + unfold bisect_and_diff_body.
      change (is_bounded (table_range hash A s e)) with true.
      change (is_bounded (table_range hash B s e)) with true.
      change (key_width (table_range hash A s e)) with (e - s).
      cbn [negb andb]. rewrite bool_decide_eq_false_2 by done. rewrite Hcs.
      apply ordered_differences_nil.
Qed.

Lemma diff_tables_ordered_differences `{SetOrder} (hash : row → Z) (A B : list row)
    (self : TableDiffer) (g : nat → Generator) :
  diff_tables self (table_segment hash A) (table_segment hash B) = Ok g →
  ∃ s e, ∀ fuel stats, ordered_differences A B s e (g fuel stats).2.1.
Proof.
  unfold diff_tables. case_bool_decide as Ht; [done|]. case_bool_decide as Hf; [done|].
  unfold query_key_range. simpl. rewrite !select_rows_all.
  destruct (sql_min (row_key <$> A)) as [min1|] eqn:Hmin1; [|done].
  destruct (sql_max (row_key <$> A)) as [max1|] eqn:Hmax1; [|done].
  destruct (sql_min (row_key <$> B)) as [min2|] eqn:Hmin2; [|done].
  destruct (sql_max (row_key <$> B)) as [max2|] eqn:Hmax2; [|done].
  simpl. intros [= <-]. eexists _, _. intros fuel stats.
  apply (bisect_ordered_differences hash A B self fuel); [unfold legal_config; lia|].
  destruct (sql_min_spec (row_key <$> A)) as (m & Hm & Hmin & _); [by destruct A|].
  destruct (sql_max_spec (row_key <$> A)) as (M & HM & _ & Hge); [by destruct A|].
  rewrite Hmin1 in Hm. rewrite Hmax1 in HM. injection Hm as <-. injection HM as <-.
  specialize (Hge _ Hmin). lia.
Qed.

(** X15. No false positive. Whatever generator [diff_tables] returns for two
    tables held as lists of rows, and however long it is run, every event it
    yields is genuine: a [('+', r)] only for a row [r] of the first table
    that the second lacks, a [('-', r)] only for a row of the second that the
    first lacks. This needs nothing of the keys (they may repeat) nor of the
    checksums (they may collide), and it holds of the events yielded before
    an exception as well. *)
Theorem diff_tables_yields_only_differences `{SetOrder} (hash : row → Z) (A B : list row)
    (self : TableDiffer) (g : nat → Generator) (fuel : nat) (stats : Stats) :
  diff_tables self (table_segment hash A) (table_segment hash B) = Ok g →
  ∀ sg r, (sg, r) ∈ (g fuel stats).2.1 →
    match sg with Plus => r ∈ A ∧ r ∉ B | Minus => r ∈ B ∧ r ∉ A end.
Proof.
  intros Hg sg r Hin.
  destruct (diff_tables_ordered_differences hash A B self g Hg) as (s & e & Hwf).
  destruct (Hwf fuel stats) as (Hgen & _ & _). rewrite Forall_forall in Hgen.
  exact (Hgen _ Hin).
Qed.

Lemma diff_tables_yields_only_differences_witness :
  ∃ g, diff_tables (differ 2 3) (table_segment example_hash left_table)
         (table_segment example_hash right_table) = Ok g ∧
       (Plus, (2, [VStr "b"])) ∈ (g 4%nat ∅).2.1 ∧
       (2, [VStr "b"]) ∈ left_table ∧ (2, [VStr "b"]) ∉ right_table.
Proof.
  exists (λ fuel, _bisect_and_diff_tables fuel (differ 2 3)
                    (table_range example_hash left_table 1 9)
                    (table_range example_hash right_table 1 9) 0 None).
  split; [reflexivity|].
  assert (Hin : (Plus, (2, [VStr "b"]))
                ∈ (_bisect_and_diff_tables 4 (differ 2 3)
                     (table_range example_hash left_table 1 9)
                     (table_range example_hash right_table 1 9) 0 None ∅).2.1).
  { apply (bool_decide_unpack _). vm_compute. exact I. }
  split; [exact Hin|].
  exact (diff_tables_yields_only_differences example_hash left_table right_table (differ 2 3)
           _ 4 ∅ eq_refl Plus (2, [VStr "b"]) Hin).
Defined.

Lemma sorted_lookup {X} (R : relation X) (l : list X) :
  StronglySorted R l →
  ∀ (i j : nat) x y, l !! i = Some x → l !! j = Some y → (i < j)%nat → R x y.
Proof.
  induction 1 as [|x0 l _ IH Hall]; intros i j x y Hi Hj Hij; [done|].
  destruct j as [|j]; [lia|]. simpl in Hj. destruct i as [|i].
  - injection Hi as <-. rewrite Forall_forall in Hall. apply Hall.
    by eapply list_elem_of_lookup_2.
  - simpl in Hi. apply (IH i j); [done..|lia].
Qed.

(** X16. The events come in ascending order of the key. Whatever generator
    [diff_tables] returns for two tables held as lists of rows, the events of
    any run of it are sorted by their key column: no event is followed,
    however much later, by one with a smaller key. *)
Theorem diff_tables_yields_in_key_order `{SetOrder} (hash : row → Z) (A B : list row)
    (self : TableDiffer) (g : nat → Generator) (fuel : nat) (stats : Stats) :
  diff_tables self (table_segment hash A) (table_segment hash B) = Ok g →
  StronglySorted key_order (g fuel stats).2.1 ∧
  ∀ (i j : nat) ev1 ev2, (g fuel stats).2.1 !! i = Some ev1 → (g fuel stats).2.1 !! j = Some ev2 →
    (i < j)%nat → row_key ev1.2 ≤ row_key ev2.2.
Proof.
  intros Hg.
  destruct (diff_tables_ordered_differences hash A B self g Hg) as (s & e & Hwf).
  destruct (Hwf fuel stats) as (_ & _ & Hsorted). split; [done|].
  intros i j ev1 ev2 Hi Hj Hij.
  exact (sorted_lookup key_order _ Hsorted i j ev1 ev2 Hi Hj Hij).
Qed.

Lemma diff_tables_yields_in_key_order_witness :
  ∃ g, diff_tables (differ 2 3) (table_segment example_hash left_table)
         (table_segment example_hash right_table) = Ok g ∧
       StronglySorted key_order (g 4%nat ∅).2.1.
Proof.
  exists (λ fuel, _bisect_and_diff_tables fuel (differ 2 3)
                    (table_range example_hash left_table 1 9)
                    (table_range example_hash right_table 1 9) 0 None).
  split; [reflexivity|].
  exact (proj1 (diff_tables_yields_in_key_order example_hash left_table right_table (differ 2 3)
                  _ 4 ∅ eq_refl)).
Defined.
